(** * Retry policies of gax (src/gax/retry_policy.h)

    A shallow embedding of [LimitedErrorCountRetryPolicy] and
    [LimitedDurationRetryPolicy], the two implementations of the abstract
    class [RetryPolicy], together with the pieces of the C++ language and
    of <chrono> that their one-line methods rely on: the [int] counter,
    [std::chrono::duration_cast], [std::min], the short-circuit [&&] and
    the post-increment. *)

From Stdlib Require Import ZArith Bool List Lia.
From stdpp Require Import base numbers option list sorting gmap.

Local Open Scope Z_scope.

(** ** The C++ [int] *)

(** [failure_count_] and [max_failures_] are [int]s: 32-bit two's complement
    on every ABI the library targets.  An [int] is kept as the [Z] it denotes.
    The C++ standard leaves the overflow of [failure_count_++] undefined; the
    model takes what the increment instruction does, the wrap-around, and
    the theorems say where they depend on it. *)
Module Int.

Definition INT_MAX : Z := 2147483647.
Definition INT_MIN : Z := -2147483648.

Definition in_range (z : Z) : Prop := INT_MIN ≤ z ≤ INT_MAX.

Definition wrap (z : Z) : Z := (z + 2 ^ 31) `mod` 2 ^ 32 - 2 ^ 31.

(** The value stored by [x++]. *)
Definition succ (z : Z) : Z := wrap (z + 1).

End Int.

(** ** The 64-bit counts of <chrono> *)

(** [std::chrono::milliseconds], [std::chrono::system_clock::duration] and
    [std::intmax_t] are 64-bit signed integers on the implementations the
    library is built with.  As for [int], a count is kept as the [Z] it
    denotes and an operation whose exact result leaves the range is taken
    to wrap around. *)
Module Int64.

Definition INT64_MAX : Z := 9223372036854775807.
Definition INT64_MIN : Z := -9223372036854775808.

Definition in_range (z : Z) : Prop := INT64_MIN ≤ z ≤ INT64_MAX.

Definition wrap (z : Z) : Z := (z + 2 ^ 63) `mod` 2 ^ 64 - 2 ^ 63.

End Int64.

(** ** <chrono> *)

(** Durations and time points are the tick counts that chrono stores, and
    the arithmetic is that of the 64-bit type it is carried out in. *)
Module Chrono.

(** [std::ratio<num, den>], in seconds per tick; a duration's period is
    positive. *)
Record ratio : Type := Ratio { num : positive; den : positive }.

Definition milli : ratio := Ratio 1 1000.
Definition micro : ratio := Ratio 1 1000000.
Definition unit_ratio : ratio := Ratio 1 1.

(** [std::ratio] keeps its members in lowest terms. *)
Definition reduce (n d : positive) : ratio :=
  let g := Z.gcd (Z.pos n) (Z.pos d) in
  Ratio (Z.to_pos (Z.pos n / g)) (Z.to_pos (Z.pos d / g)).

(** [std::ratio_divide<R1, R2>] *)
Definition ratio_divide (r1 r2 : ratio) : ratio :=
  reduce (num r1 * den r2) (den r1 * num r2).

(** [std::chrono::duration<Rep, Period>] with [Rep] a signed integer type of
    at most 64 bits; [count] is the value it holds.  (The constructors of
    the policies are templates and also take a floating-point [Rep]; such a
    duration has no term here.) *)
Record duration : Type := Duration { count : Z; period : ratio }.

(** [std::chrono::milliseconds], as its count. *)
Definition milliseconds : Type := Z.

Definition of_milliseconds (ms : milliseconds) : duration := Duration ms milli.

(** [std::chrono::microseconds(n)] and [std::chrono::seconds(n)]. *)
Definition of_microseconds (n : Z) : duration := Duration n micro.
Definition of_seconds (n : Z) : duration := Duration n unit_ratio.

(** [std::chrono::duration_cast], after [time.duration.cast]: with the
    conversion factor [CF = cf_num / cf_den] in lowest terms, the count is
    multiplied by [CF::num] and divided by [CF::den], each step being
    skipped when the factor is one.  The computation is carried out in
    [std::intmax_t]: the product is a 64-bit product, and the division is
    that of C++ integers, which rounds toward zero ([Z.quot]). *)
Definition cast_count (c : Z) (cf_num cf_den : positive) : Z :=
  match cf_num, cf_den with
  | 1%positive, 1%positive => c
  | _, 1%positive => Int64.wrap (c * Z.pos cf_num)
  | 1%positive, _ => c ÷ Z.pos cf_den
  | _, _ => Int64.wrap (c * Z.pos cf_num) ÷ Z.pos cf_den
  end.

(** [std::chrono::duration_cast<std::chrono::milliseconds>(d)]:
    [CF = ratio_divide<Period, std::milli>]. *)
Definition duration_cast_milliseconds (d : duration) : milliseconds :=
  let cf := ratio_divide (period d) milli in
  cast_count (count d) (num cf) (den cf).

(** [std::chrono::system_clock::time_point], as the number of ticks of the
    system clock since its epoch. *)
Definition time_point : Type := Z.

(** [std::min(a, b)]: [(b < a) ? b : a]. *)
Definition std_min (a b : time_point) : time_point :=
  if b <? a then b else a.

(** [tp + ms] and [ms + tp]: the milliseconds are converted to the time
    point's ticks, [ticks_per_ms] of them in a millisecond (10^6 where the
    system clock counts nanoseconds, 10^3 where it counts microseconds),
    and added; the conversion is a 64-bit product and the sum a 64-bit
    sum. *)
Definition to_ticks (ticks_per_ms : positive) (ms : milliseconds) : Z :=
  Int64.wrap (ms * Z.pos ticks_per_ms).

Definition time_point_plus (ticks_per_ms : positive)
    (tp : time_point) (ms : milliseconds) : time_point :=
  Int64.wrap (tp + to_ticks ticks_per_ms ms).

Definition duration_plus_time_point (ticks_per_ms : positive)
    (ms : milliseconds) (tp : time_point) : time_point :=
  Int64.wrap (to_ticks ticks_per_ms ms + tp).

End Chrono.

(** ** The collaborators: status and clock *)

(** [gax/status.h] is not part of the sources at hand; [OnFailure] asks a
    status one question only. *)
Class Status (S : Type) := IsPermanentFailure : S → bool.

(** The [Clock] template parameter: anything with a [now() const].  What a
    clock answers depends on the moment it is asked, the world [W]. *)
Class Clock (C W : Type) := now : C → W → Chrono.time_point.

(** [class DefaultClock]: the reading of [std::chrono::system_clock]. *)
Inductive DefaultClock : Type := mkDefaultClock.

#[export] Instance DefaultClock_now : Clock DefaultClock Chrono.time_point :=
  λ _ system_time, system_time.

(** ** [class RetryPolicy] *)

(** The three pure virtual members.  A method that is not [const] returns the
    object's new state next to its result. *)
Class RetryPolicy (S W P : Type) := {
  clone : P → W → P;
  OnFailure : P → S → W → bool * P;
  OperationDeadline : P → W → Chrono.time_point
}.

(** ** The bodies of the member functions, as expressions *)

(** The bodies of [OnFailure] and [OperationDeadline] are single return
    expressions.  They are kept here as written, over the data members [F]
    of the class, so that what an expression reads and what it writes can be
    told from the expression itself. *)
Inductive expr (F : Type) : Type :=
| Member (f : F)                  (* [f_] *)
| PostIncrement (f : F)           (* [f_++], on an [int] *)
| Now                             (* [c_.now()] *)
| Plus (tp ms : expr F)           (* time point [+] milliseconds *)
| Min (a b : expr F).             (* [std::min(a, b)] *)
Arguments Member {F} f.
Arguments PostIncrement {F} f.
Arguments Now {F}.
Arguments Plus {F} tp ms.
Arguments Min {F} a b.

Inductive cond (F : Type) : Type :=
| NotPermanentFailure             (* [!status.IsPermanentFailure()] *)
| Less (a b : expr F)             (* [a < b] *)
| AndAlso (a b : cond F).         (* [a && b] *)
Arguments NotPermanentFailure {F}.
Arguments Less {F} a b.
Arguments AndAlso {F} a b.

(** An object [O] with its data members and its clock. *)
Class Members (F O C : Type) := {
  member : O → F → Z;
  set_member : O → F → Z → O;
  clock_member : O → C
}.

Section Evaluation.
Context {S : Type} `{Status S} {C W : Type} `{Clock C W}.
Context {F O : Type} `{Members F O C}.
Variable ticks_per_ms : positive.

(** The value of an expression and the object it leaves.  Operands are
    evaluated from left to right; in the bodies at hand at most one operand
    of an operator writes. *)
Fixpoint eval (e : expr F) (this : O) (w : W) : Z * O :=
  match e with
  | Member f => (member this f, this)
  | PostIncrement f =>
      (member this f, set_member this f (Int.succ (member this f)))
  | Now => (now (clock_member this) w, this)
  | Plus tp ms =>
      let '(x, this1) := eval tp this w in
      let '(y, this2) := eval ms this1 w in
      (Chrono.time_point_plus ticks_per_ms x y, this2)
  | Min a b =>
      let '(x, this1) := eval a this w in
      let '(y, this2) := eval b this1 w in
      (Chrono.std_min x y, this2)
  end.

(** [a && b] evaluates [b] only when [a] is true. *)
Fixpoint eval_cond (c : cond F) (this : O) (status : S) (w : W) : bool * O :=
  match c with
  | NotPermanentFailure => (negb (IsPermanentFailure status), this)
  | Less a b =>
      let '(x, this1) := eval a this w in
      let '(y, this2) := eval b this1 w in
      (x <? y, this2)
  | AndAlso a b =>
      let '(x, this1) := eval_cond a this status w in
      if x then eval_cond b this1 status w else (false, this1)
  end.

(** The data members an expression assigns to. *)
Fixpoint writes (e : expr F) : list F :=
  match e with
  | Member _ | Now => []
  | PostIncrement f => [f]
  | Plus a b | Min a b => writes a ++ writes b
  end.

Fixpoint cond_writes (c : cond F) : list F :=
  match c with
  | NotPermanentFailure => []
  | Less a b => writes a ++ writes b
  | AndAlso a b => cond_writes a ++ cond_writes b
  end.

End Evaluation.

(** ** [class LimitedErrorCountRetryPolicy] *)
Module LimitedErrorCountRetryPolicy.
Section Policy.
Context {S : Type} `{Status S} {C W : Type} `{Clock C W}.
Variable ticks_per_ms : positive.

Record t : Type := Build {
  c_ : C;
  rpc_duration_ : Chrono.milliseconds;
  failure_count_ : Z;
  max_failures_ : Z
}.

Definition ctor (max_failures : Z) (rpc_duration : Chrono.duration) (c : C) : t :=
  {| c_ := c;
     rpc_duration_ := Chrono.duration_cast_milliseconds rpc_duration;
     failure_count_ := 0;
     max_failures_ := max_failures |}.

Definition copy_ctor (rhs : t) : t :=
  ctor (max_failures_ rhs) (Chrono.of_milliseconds (rpc_duration_ rhs)) (c_ rhs).

Definition move_ctor (rhs : t) : t :=
  ctor (max_failures_ rhs) (Chrono.of_milliseconds (rpc_duration_ rhs)) (c_ rhs).

Definition clone (this : t) : t := copy_ctor this.

(** [!status.IsPermanentFailure() && failure_count_++ < max_failures_]: the
    right operand, and its increment, are evaluated only when the left one
    is true; the comparison reads the counter before the increment. *)
Definition OnFailure (this : t) (status : S) : bool * t :=
  if negb (IsPermanentFailure status) then
    (failure_count_ this <? max_failures_ this,
     {| c_ := c_ this;
        rpc_duration_ := rpc_duration_ this;
        failure_count_ := Int.succ (failure_count_ this);
        max_failures_ := max_failures_ this |})
  else (false, this).

Definition OperationDeadline (this : t) (w : W) : Chrono.time_point :=
  Chrono.time_point_plus ticks_per_ms (now (c_ this) w) (rpc_duration_ this).

(** The data members, and the two bodies as they are written. *)
Inductive data_member : Type := m_rpc_duration | m_failure_count | m_max_failures.

#[global] Instance members : Members data_member t C := {
  member this f :=
    match f with
    | m_rpc_duration => rpc_duration_ this
    | m_failure_count => failure_count_ this
    | m_max_failures => max_failures_ this
    end;
  set_member this f v :=
    match f with
    | m_rpc_duration =>
        {| c_ := c_ this; rpc_duration_ := v;
           failure_count_ := failure_count_ this; max_failures_ := max_failures_ this |}
    | m_failure_count =>
        {| c_ := c_ this; rpc_duration_ := rpc_duration_ this;
           failure_count_ := v; max_failures_ := max_failures_ this |}
    | m_max_failures =>
        {| c_ := c_ this; rpc_duration_ := rpc_duration_ this;
           failure_count_ := failure_count_ this; max_failures_ := v |}
    end;
  clock_member := c_
}.

(** [return !status.IsPermanentFailure() && failure_count_++ < max_failures_;] *)
Definition OnFailure_body : cond data_member :=
  AndAlso NotPermanentFailure
    (Less (PostIncrement m_failure_count) (Member m_max_failures)).

(** [return c_.now() + rpc_duration_;] *)
Definition OperationDeadline_body : expr data_member :=
  Plus Now (Member m_rpc_duration).

(** Consecutive calls of [OnFailure]: the answers, in order, and the state
    they leave. *)
Fixpoint OnFailures (this : t) (statuses : list S) : list bool * t :=
  match statuses with
  | [] => ([], this)
  | status :: rest =>
      let '(b, this') := OnFailure this status in
      let '(bs, last) := OnFailures this' rest in
      (b :: bs, last)
  end.

(** The values the counter takes after each of those calls. *)
Fixpoint counters (this : t) (statuses : list S) : list Z :=
  match statuses with
  | [] => []
  | status :: rest =>
      let this' := snd (OnFailure this status) in
      failure_count_ this' :: counters this' rest
  end.

(** The object with its counter set to [n]. *)
Definition with_count (this : t) (n : Z) : t :=
  {| c_ := c_ this;
     rpc_duration_ := rpc_duration_ this;
     failure_count_ := n;
     max_failures_ := max_failures_ this |}.

(** How many of the statuses are not permanent failures. *)
Definition transient_count (statuses : list S) : Z :=
  Z.of_nat (length (List.filter (λ s, negb (IsPermanentFailure s)) statuses)).

End Policy.
Arguments t : clear implicits.
End LimitedErrorCountRetryPolicy.

(** ** [class LimitedDurationRetryPolicy] *)
Module LimitedDurationRetryPolicy.
Section Policy.
Context {S : Type} `{Status S} {C W : Type} `{Clock C W}.
Variable ticks_per_ms : positive.

Record t : Type := Build {
  c_ : C;
  rpc_duration_ : Chrono.milliseconds;
  max_duration_ : Chrono.milliseconds;
  deadline_ : Chrono.time_point
}.

(** The members are initialised in the order of their declaration, so
    [deadline_] reads the [max_duration_] already cast and asks the stored
    clock for the time of the construction, [w]. *)
Definition ctor (max_duration rpc_duration : Chrono.duration) (c : C) (w : W) : t :=
  let max_ms := Chrono.duration_cast_milliseconds max_duration in
  {| c_ := c;
     rpc_duration_ := Chrono.duration_cast_milliseconds rpc_duration;
     max_duration_ := max_ms;
     deadline_ := Chrono.duration_plus_time_point ticks_per_ms max_ms (now c w) |}.

Definition copy_ctor (rhs : t) (w : W) : t :=
  ctor (Chrono.of_milliseconds (max_duration_ rhs))
       (Chrono.of_milliseconds (rpc_duration_ rhs)) (c_ rhs) w.

Definition move_ctor (rhs : t) (w : W) : t :=
  ctor (Chrono.of_milliseconds (max_duration_ rhs))
       (Chrono.of_milliseconds (rpc_duration_ rhs)) (c_ rhs) w.

Definition clone (this : t) (w : W) : t := copy_ctor this w.

(** [!status.IsPermanentFailure() && c_.now() < deadline_]: no member is
    written. *)
Definition OnFailure (this : t) (status : S) (w : W) : bool * t :=
  (negb (IsPermanentFailure status) && (now (c_ this) w <? deadline_ this),
   this).

Definition OperationDeadline (this : t) (w : W) : Chrono.time_point :=
  Chrono.std_min (deadline_ this)
    (Chrono.time_point_plus ticks_per_ms (now (c_ this) w) (rpc_duration_ this)).

(** The data members, and the two bodies as they are written. *)
Inductive data_member : Type := m_rpc_duration | m_max_duration | m_deadline.

#[global] Instance members : Members data_member t C := {
  member this f :=
    match f with
    | m_rpc_duration => rpc_duration_ this
    | m_max_duration => max_duration_ this
    | m_deadline => deadline_ this
    end;
  set_member this f v :=
    match f with
    | m_rpc_duration =>
        {| c_ := c_ this; rpc_duration_ := v;
           max_duration_ := max_duration_ this; deadline_ := deadline_ this |}
    | m_max_duration =>
        {| c_ := c_ this; rpc_duration_ := rpc_duration_ this;
           max_duration_ := v; deadline_ := deadline_ this |}
    | m_deadline =>
        {| c_ := c_ this; rpc_duration_ := rpc_duration_ this;
           max_duration_ := max_duration_ this; deadline_ := v |}
    end;
  clock_member := c_
}.

(** [return !status.IsPermanentFailure() && c_.now() < deadline_;] *)
Definition OnFailure_body : cond data_member :=
  AndAlso NotPermanentFailure (Less Now (Member m_deadline)).

(** [return std::min(deadline_, c_.now() + rpc_duration_);] *)
Definition OperationDeadline_body : expr data_member :=
  Min (Member m_deadline) (Plus Now (Member m_rpc_duration)).

(** Consecutive calls of [OnFailure], each at its own moment. *)
Fixpoint OnFailures (this : t) (calls : list (S * W)) : list bool * t :=
  match calls with
  | [] => ([], this)
  | (status, w) :: rest =>
      let '(b, this') := OnFailure this status w in
      let '(bs, last) := OnFailures this' rest in
      (b :: bs, last)
  end.

(** What the stored clock answers at the moment of a call. *)
Definition reading (this : t) (call : S * W) : Chrono.time_point :=
  now (c_ this) (snd call).

End Policy.
Arguments t : clear implicits.
End LimitedDurationRetryPolicy.

Module LEC := LimitedErrorCountRetryPolicy.
Module LD := LimitedDurationRetryPolicy.

(** The two classes override the virtual members of [RetryPolicy]. *)
Section Overrides.
Context {S : Type} `{Status S} {C W : Type} `{Clock C W}.
Variable ticks_per_ms : positive.

#[export] Instance LimitedErrorCount_RetryPolicy : RetryPolicy S W (LEC.t C) := {
  clone this _ := LEC.clone this;
  OnFailure this status _ := LEC.OnFailure this status;
  OperationDeadline := LEC.OperationDeadline ticks_per_ms
}.

#[export] Instance LimitedDuration_RetryPolicy : RetryPolicy S W (LD.t C) := {
  clone := LD.clone ticks_per_ms;
  OnFailure := LD.OnFailure;
  OperationDeadline := LD.OperationDeadline ticks_per_ms
}.

End Overrides.

(** ** A caller's view: calls through the interface *)

(** What a caller does with the policy it holds, and what it gets back. *)
Inductive call (S : Type) : Type :=
| CallOnFailure (status : S)
| CallOperationDeadline.
Arguments CallOnFailure {S} status.
Arguments CallOperationDeadline {S}.

Inductive reply : Type :=
| Retry (b : bool)
| Deadline (t : Chrono.time_point).

Section Calls.
Context {S W P : Type} {policy : RetryPolicy S W P}.

Definition is_OnFailure (cw : call S * W) : bool :=
  match fst cw with CallOnFailure _ => true | CallOperationDeadline => false end.

(** [OperationDeadline] is a [const] member: it hands back a value and the
    object stays as it was. *)
Definition do_call (this : P) (c : call S) (w : W) : reply * P :=
  match c with
  | CallOnFailure status =>
      let '(b, this') := OnFailure this status w in (Retry b, this')
  | CallOperationDeadline => (Deadline (OperationDeadline this w), this)
  end.

Fixpoint do_calls (this : P) (cs : list (call S * W)) : list reply * P :=
  match cs with
  | [] => ([], this)
  | (c, w) :: rest =>
      let '(r, this') := do_call this c w in
      let '(rs, last) := do_calls this' rest in
      (r :: rs, last)
  end.

Definition is_Retry (r : reply) : bool :=
  match r with Retry _ => true | Deadline _ => false end.

(** ** Objects on the free store *)

(** [clone()] returns a [std::unique_ptr] to an object made by [new]; a
    caller reaches a policy through its address. *)
Definition new (h : gmap positive P) (obj : P) : positive * gmap positive P :=
  let l := fresh (dom h) in (l, <[l := obj]> h).

Definition clone_at (h : gmap positive P) (l : positive) (w : W)
    : option (positive * gmap positive P) :=
  this ← h !! l; Some (new h (clone this w)).

Definition OnFailure_at (h : gmap positive P) (l : positive) (status : S) (w : W)
    : option (bool * gmap positive P) :=
  this ← h !! l;
  let '(b, this') := OnFailure this status w in Some (b, <[l := this']> h).

(** Consecutive calls of [OnFailure] through the interface, on an object
    held by value and on an object of the store. *)
Fixpoint policy_run (this : P) (calls : list (S * W)) : list bool * P :=
  match calls with
  | [] => ([], this)
  | (status, w) :: rest =>
      let '(b, this') := OnFailure this status w in
      let '(bs, last) := policy_run this' rest in
      (b :: bs, last)
  end.

Fixpoint OnFailures_at (h : gmap positive P) (l : positive) (calls : list (S * W))
    : option (list bool * gmap positive P) :=
  match calls with
  | [] => Some ([], h)
  | (status, w) :: rest =>
      '(b, h1) ← OnFailure_at h l status w;
      '(bs, h2) ← OnFailures_at h1 l rest;
      Some (b :: bs, h2)
  end.

End Calls.

(** ** Running the bodies *)

(** A caller's calls, each answered by evaluating the body of the member
    function called; the object after a call is the one the body leaves. *)
Section BodyRuns.
Context {S : Type} `{Status S} {C W : Type} `{Clock C W}.
Context {F O : Type} `{Members F O C}.
Variable ticks_per_ms : positive.
Variables (on_failure : cond F) (operation_deadline : expr F).

Definition run_call (this : O) (c : call S) (w : W) : reply * O :=
  match c with
  | CallOnFailure status =>
      let '(b, this') := eval_cond ticks_per_ms on_failure this status w in
      (Retry b, this')
  | CallOperationDeadline =>
      let '(t, this') := eval ticks_per_ms operation_deadline this w in
      (Deadline t, this')
  end.

Fixpoint run_calls (this : O) (cs : list (call S * W)) : list reply * O :=
  match cs with
  | [] => ([], this)
  | (c, w) :: rest =>
      let '(r, this') := run_call this c w in
      let '(rs, last) := run_calls this' rest in
      (r :: rs, last)
  end.

End BodyRuns.

(** ** Counting the retries a caller was granted *)

(** How many of the answers of [OnFailure] were [true]. *)
Definition granted (answers : list bool) : Z :=
  Z.of_nat (length (List.filter (λ b : bool, b) answers)).

(** ** Stand-ins used to run the code on concrete inputs *)
Module Fixture.

Inductive status : Type := Transient | Permanent.

#[global] Instance status_Status : Status status :=
  λ s, match s with Permanent => true | Transient => false end.

(** A system clock that counts nanoseconds. *)
Definition ns_per_ms : positive := 1000000.

End Fixture.

(** Closes a goal [Int64.in_range z] on a literal [z]. *)
Ltac in_int64 := vm_compute; split; discriminate.

(** * Properties *)

(** ** The [int] counter *)

Lemma wrap_in_range (z : Z) : Int.in_range z → Int.wrap z = z.
Proof.
  unfold Int.in_range, Int.INT_MIN, Int.INT_MAX, Int.wrap. intros Hz.
  rewrite Z.mod_small; lia.
Qed.

Lemma succ_below_INT_MAX (z : Z) :
  Int.INT_MIN ≤ z < Int.INT_MAX → Int.succ z = z + 1.
Proof.
  intros Hz. apply wrap_in_range.
  unfold Int.in_range, Int.INT_MIN, Int.INT_MAX in *. lia.
Qed.

Lemma succ_INT_MAX : Int.succ Int.INT_MAX = Int.INT_MIN.
Proof. reflexivity. Qed.

(** The increment never leaves the counter as it was. *)
Lemma succ_changes (z : Z) : Int.succ z ≠ z.
Proof.
  unfold Int.succ, Int.wrap.
  pose proof (Z.mod_pos_bound (z + 1 + 2 ^ 31) (2 ^ 32) ltac:(lia)) as Hb.
  pose proof (Z.div_mod (z + 1 + 2 ^ 31) (2 ^ 32) ltac:(lia)) as Hd.
  intros Heq. lia.
Qed.

(** ** 64-bit counts *)

Lemma wrap64_in_range (z : Z) : Int64.in_range z → Int64.wrap z = z.
Proof.
  unfold Int64.in_range, Int64.INT64_MIN, Int64.INT64_MAX, Int64.wrap. intros Hz.
  rewrite Z.mod_small; lia.
Qed.

Lemma wrap64_range (z : Z) : Int64.in_range (Int64.wrap z).
Proof.
  unfold Int64.in_range, Int64.INT64_MIN, Int64.INT64_MAX, Int64.wrap.
  pose proof (Z.mod_pos_bound (z + 2 ^ 63) (2 ^ 64) ltac:(lia)). lia.
Qed.

Lemma wrap64_add_wrap_r (a b : Z) :
  Int64.wrap (a + Int64.wrap b) = Int64.wrap (a + b).
Proof.
  unfold Int64.wrap. f_equal.
  replace (a + ((b + 2 ^ 63) `mod` 2 ^ 64 - 2 ^ 63) + 2 ^ 63)
    with (a + (b + 2 ^ 63) `mod` 2 ^ 64) by lia.
  rewrite Zplus_mod_idemp_r. f_equal. lia.
Qed.

Lemma wrap64_add_wrap_l (a b : Z) :
  Int64.wrap (Int64.wrap a + b) = Int64.wrap (a + b).
Proof. rewrite (Z.add_comm (Int64.wrap a)), wrap64_add_wrap_r. f_equal. lia. Qed.

(** ** Sums of a time point and a duration *)

(** When the duration in ticks and the sum both fit in 64 bits, the sum is
    the exact one. *)
Lemma time_point_plus_exact (ticks_per_ms : positive)
    (tp : Chrono.time_point) (ms : Chrono.milliseconds) :
  Int64.in_range (ms * Z.pos ticks_per_ms) →
  Int64.in_range (tp + ms * Z.pos ticks_per_ms) →
  Chrono.time_point_plus ticks_per_ms tp ms = tp + ms * Z.pos ticks_per_ms.
Proof.
  intros _ Hsum. unfold Chrono.time_point_plus, Chrono.to_ticks.
  rewrite wrap64_add_wrap_r. apply wrap64_in_range, Hsum.
Qed.

Lemma duration_plus_time_point_exact (ticks_per_ms : positive)
    (ms : Chrono.milliseconds) (tp : Chrono.time_point) :
  Int64.in_range (ms * Z.pos ticks_per_ms) →
  Int64.in_range (tp + ms * Z.pos ticks_per_ms) →
  Chrono.duration_plus_time_point ticks_per_ms ms tp = tp + ms * Z.pos ticks_per_ms.
Proof.
  intros _ Hsum. unfold Chrono.duration_plus_time_point, Chrono.to_ticks.
  rewrite wrap64_add_wrap_l, Z.add_comm. apply wrap64_in_range, Hsum.
Qed.

Lemma plus_commutes (ticks_per_ms : positive)
    (ms : Chrono.milliseconds) (tp : Chrono.time_point) :
  Chrono.duration_plus_time_point ticks_per_ms ms tp
  = Chrono.time_point_plus ticks_per_ms tp ms.
Proof.
  unfold Chrono.duration_plus_time_point, Chrono.time_point_plus.
  f_equal. lia.
Qed.

Lemma std_min_min (a b : Chrono.time_point) : Chrono.std_min a b = Z.min a b.
Proof. unfold Chrono.std_min. destruct (Z.ltb_spec b a); lia. Qed.

(** ** [duration_cast] *)

Lemma cast_count_quot (c : Z) (n m : positive) :
  Int64.in_range (c * Z.pos n) →
  Chrono.cast_count c n m = c * Z.pos n ÷ Z.pos m.
Proof.
  intros Hr. unfold Chrono.cast_count.
  destruct n, m; rewrite ?wrap64_in_range by exact Hr;
    rewrite ?Z.mul_1_r, ?Z.quot_1_r; reflexivity.
Qed.

Lemma reduce_terms (n d : positive) :
  ∃ g, 0 < g
       ∧ Z.pos n = g * Z.pos (Chrono.num (Chrono.reduce n d))
       ∧ Z.pos d = g * Z.pos (Chrono.den (Chrono.reduce n d)).
Proof.
  unfold Chrono.reduce; cbn [Chrono.num Chrono.den].
  set (g := Z.gcd (Z.pos n) (Z.pos d)).
  assert (Hg : 0 < g).
  { pose proof (Z.gcd_nonneg (Z.pos n) (Z.pos d)).
    assert (g ≠ 0); [|lia].
    intros Hg0. apply Z.gcd_eq_0_l in Hg0. lia. }
  destruct (Z.gcd_divide_l (Z.pos n) (Z.pos d)) as [n' Hn].
  destruct (Z.gcd_divide_r (Z.pos n) (Z.pos d)) as [d' Hd].
  fold g in Hn, Hd.
  assert (Hn' : 0 < n') by nia.
  assert (Hd' : 0 < d') by nia.
  exists g. rewrite Hn, Hd, !Z.div_mul by lia.
  rewrite !Z2Pos.id by lia. split; [exact Hg|split; lia].
Qed.

Lemma reduce_quot (c : Z) (n d : positive) :
  c * Z.pos (Chrono.num (Chrono.reduce n d)) ÷ Z.pos (Chrono.den (Chrono.reduce n d))
  = c * Z.pos n ÷ Z.pos d.
Proof.
  destruct (reduce_terms n d) as (g & Hg & Hn & Hd).
  set (n' := Z.pos (Chrono.num (Chrono.reduce n d))) in *.
  set (d' := Z.pos (Chrono.den (Chrono.reduce n d))) in *.
  rewrite Hn, Hd.
  rewrite (Z.mul_comm g n'), (Z.mul_comm g d'), Z.mul_assoc.
  symmetry. apply Z.quot_mul_cancel_r; lia.
Qed.

Lemma reduce_in_range (c : Z) (n d : positive) :
  Int64.in_range (c * Z.pos n) →
  Int64.in_range (c * Z.pos (Chrono.num (Chrono.reduce n d))).
Proof.
  destruct (reduce_terms n d) as (g & Hg & Hn & _).
  unfold Int64.in_range, Int64.INT64_MIN, Int64.INT64_MAX. rewrite Hn. nia.
Qed.

(** Without overflow of the product, the cast is the exact number of
    milliseconds, rounded toward zero. *)
Lemma duration_cast_milliseconds_quot (d : Chrono.duration) :
  Int64.in_range (Chrono.count d * (Z.pos (Chrono.num (Chrono.period d)) * 1000)) →
  Chrono.duration_cast_milliseconds d
  = Chrono.count d * (Z.pos (Chrono.num (Chrono.period d)) * 1000)
    ÷ Z.pos (Chrono.den (Chrono.period d)).
Proof.
  intros Hr. unfold Chrono.duration_cast_milliseconds, Chrono.ratio_divide.
  cbv zeta. cbn [Chrono.num Chrono.den Chrono.milli].
  rewrite Pos.mul_1_r.
  rewrite cast_count_quot, reduce_quot.
  - rewrite Pos2Z.inj_mul. reflexivity.
  - apply reduce_in_range. rewrite Pos2Z.inj_mul. exact Hr.
Qed.

(** Casting milliseconds to milliseconds changes nothing. *)
Lemma duration_cast_of_milliseconds (m : Chrono.milliseconds) :
  Chrono.duration_cast_milliseconds (Chrono.of_milliseconds m) = m.
Proof. reflexivity. Qed.

Lemma duration_cast_idempotent (d : Chrono.duration) :
  Chrono.duration_cast_milliseconds
    (Chrono.of_milliseconds (Chrono.duration_cast_milliseconds d))
  = Chrono.duration_cast_milliseconds d.
Proof. apply duration_cast_of_milliseconds. Qed.


(** ** [LimitedErrorCountRetryPolicy]: one call, then runs of calls *)
Section ErrorCountFacts.
Context {S : Type} `{Status S} {C : Type}.
Implicit Types (this : LEC.t C) (status : S) (statuses : list S).

Lemma with_count_same this : LEC.with_count this (LEC.failure_count_ this) = this.
Proof. destruct this; reflexivity. Qed.

Lemma OnFailure_permanent this status :
  IsPermanentFailure status = true → LEC.OnFailure this status = (false, this).
Proof. unfold LEC.OnFailure. intros ->. reflexivity. Qed.

Lemma OnFailure_transient this status :
  IsPermanentFailure status = false →
  LEC.OnFailure this status
  = (LEC.failure_count_ this <? LEC.max_failures_ this,
     LEC.with_count this (Int.succ (LEC.failure_count_ this))).
Proof. unfold LEC.OnFailure. intros ->. reflexivity. Qed.

Lemma OnFailures_cons this status statuses :
  LEC.OnFailures this (status :: statuses)
  = (fst (LEC.OnFailure this status)
       :: fst (LEC.OnFailures (snd (LEC.OnFailure this status)) statuses),
     snd (LEC.OnFailures (snd (LEC.OnFailure this status)) statuses)).
Proof.
  cbn [LEC.OnFailures].
  destruct (LEC.OnFailure this status) as [b this']. cbn [fst snd].
  destruct (LEC.OnFailures this' statuses) as [bs last]. reflexivity.
Qed.

Lemma OnFailures_app this l1 l2 :
  LEC.OnFailures this (l1 ++ l2)
  = (fst (LEC.OnFailures this l1)
       ++ fst (LEC.OnFailures (snd (LEC.OnFailures this l1)) l2),
     snd (LEC.OnFailures (snd (LEC.OnFailures this l1)) l2)).
Proof.
  revert this. induction l1 as [|s l1 IH]; intros this.
  - cbn. destruct (LEC.OnFailures this l2); reflexivity.
  - rewrite <- app_comm_cons, !OnFailures_cons, IH. reflexivity.
Qed.

Lemma OnFailures_length this statuses :
  length (fst (LEC.OnFailures this statuses)) = length statuses.
Proof.
  revert this. induction statuses as [|s l IH]; intros this; [reflexivity|].
  rewrite OnFailures_cons. cbn. f_equal. apply IH.
Qed.

(** Only the counter is ever written. *)
Lemma OnFailure_with_count this status :
  snd (LEC.OnFailure this status)
  = LEC.with_count this (LEC.failure_count_ (snd (LEC.OnFailure this status))).
Proof.
  unfold LEC.OnFailure.
  destruct (negb (IsPermanentFailure status)); cbn; [reflexivity|].
  symmetry. apply with_count_same.
Qed.

Lemma OnFailures_with_count this statuses :
  snd (LEC.OnFailures this statuses)
  = LEC.with_count this (LEC.failure_count_ (snd (LEC.OnFailures this statuses))).
Proof.
  revert this. induction statuses as [|s l IH]; intros this.
  - cbn. symmetry. apply with_count_same.
  - rewrite OnFailures_cons. cbn [snd]. rewrite IH at 1.
    rewrite (OnFailure_with_count this s). reflexivity.
Qed.

(** Transient failures, as long as the counter stays an [int]: the counter
    goes up by one at each. *)
Lemma transient_run_state this statuses :
  Forall (λ s, IsPermanentFailure s = false) statuses →
  Int.INT_MIN ≤ LEC.failure_count_ this →
  LEC.failure_count_ this + Z.of_nat (length statuses) ≤ Int.INT_MAX →
  snd (LEC.OnFailures this statuses)
  = LEC.with_count this (LEC.failure_count_ this + Z.of_nat (length statuses)).
Proof.
  intros Hall. revert this.
  induction Hall as [|s l Hs _ IH]; intros this Hlo Hhi.
  - cbn. rewrite Z.add_0_r. symmetry. apply with_count_same.
  - rewrite OnFailures_cons, (OnFailure_transient _ _ Hs). cbn [snd].
    cbn [length] in Hhi.
    rewrite succ_below_INT_MAX by lia.
    rewrite IH; cbn [LEC.with_count LEC.failure_count_]; [|lia..].
    unfold LEC.with_count; cbn. f_equal. cbn [length]. lia.
Qed.

Lemma transient_run_counters this statuses :
  Forall (λ s, IsPermanentFailure s = false) statuses →
  Int.INT_MIN ≤ LEC.failure_count_ this →
  LEC.failure_count_ this + Z.of_nat (length statuses) ≤ Int.INT_MAX →
  LEC.counters this statuses
  = seqZ (LEC.failure_count_ this + 1) (Z.of_nat (length statuses)).
Proof.
  intros Hall. revert this.
  induction Hall as [|s l Hs _ IH]; intros this Hlo Hhi.
  - reflexivity.
  - cbn [LEC.counters length] in *.
    rewrite (OnFailure_transient _ _ Hs). cbn [snd].
    rewrite succ_below_INT_MAX by lia.
    rewrite IH; cbn [LEC.with_count LEC.failure_count_]; [|lia..].
    rewrite (seqZ_cons _ (Z.of_nat (Datatypes.S (length l)))) by lia.
    f_equal. f_equal; lia.
Qed.

(** While the counter is below the maximum the answer is [true]. *)
Lemma transient_run_true this statuses :
  Forall (λ s, IsPermanentFailure s = false) statuses →
  Int.INT_MIN ≤ LEC.failure_count_ this →
  LEC.failure_count_ this + Z.of_nat (length statuses) ≤ LEC.max_failures_ this →
  LEC.max_failures_ this ≤ Int.INT_MAX →
  fst (LEC.OnFailures this statuses) = replicate (length statuses) true.
Proof.
  intros Hall. revert this.
  induction Hall as [|s l Hs _ IH]; intros this Hlo Hhi Hmax.
  - reflexivity.
  - rewrite OnFailures_cons, (OnFailure_transient _ _ Hs). cbn [fst snd].
    cbn [length] in *.
    rewrite succ_below_INT_MAX by lia.
    rewrite IH; cbn [LEC.with_count LEC.failure_count_ LEC.max_failures_]; [|lia..].
    cbn [replicate]. f_equal. apply Z.ltb_lt. lia.
Qed.

(** Once the counter has reached the maximum the answer is [false], for
    as long as the counter stays an [int]. *)
Lemma exhausted_run_false this statuses :
  LEC.max_failures_ this ≤ LEC.failure_count_ this →
  Int.INT_MIN ≤ LEC.failure_count_ this →
  LEC.failure_count_ this + LEC.transient_count statuses ≤ Int.INT_MAX →
  fst (LEC.OnFailures this statuses) = replicate (length statuses) false.
Proof.
  revert this. induction statuses as [|s l IH]; intros this Hex Hlo Hhi.
  - reflexivity.
  - rewrite OnFailures_cons. cbn [length replicate].
    unfold LEC.transient_count in Hhi. cbn [List.filter] in Hhi.
    destruct (IsPermanentFailure s) eqn:Hs; cbn [negb] in Hhi.
    + rewrite (OnFailure_permanent _ _ Hs). cbn [fst snd].
      f_equal. apply IH; [lia..|exact Hhi].
    + rewrite (OnFailure_transient _ _ Hs). cbn [fst snd]. cbn [length] in Hhi.
      pose proof (Nat2Z.is_nonneg
        (length (List.filter (λ s, negb (IsPermanentFailure s)) l))).
      rewrite succ_below_INT_MAX by lia.
      f_equal; [apply Z.ltb_ge; lia|].
      apply IH; cbn [LEC.with_count LEC.failure_count_ LEC.max_failures_];
        [lia..|unfold LEC.transient_count; lia].
Qed.

End ErrorCountFacts.

(** ** [LimitedDurationRetryPolicy]: runs of calls *)
Section DurationFacts.
Context {S : Type} `{Status S} {C W : Type} `{Clock C W}.
Implicit Types (this : LD.t C) (status : S) (calls : list (S * W)).

Lemma LD_OnFailures_cons this status w calls :
  LD.OnFailures this ((status, w) :: calls)
  = (fst (LD.OnFailure this status w) :: fst (LD.OnFailures this calls),
     snd (LD.OnFailures this calls)).
Proof.
  cbn [LD.OnFailures LD.OnFailure fst].
  destruct (LD.OnFailures this calls) as [bs last]. reflexivity.
Qed.

(** No call of [OnFailure] writes to the object. *)
Lemma LD_OnFailures_state this calls : snd (LD.OnFailures this calls) = this.
Proof.
  induction calls as [|[s w] l IH]; [reflexivity|].
  rewrite LD_OnFailures_cons. exact IH.
Qed.

Lemma LD_OnFailures_results this calls :
  fst (LD.OnFailures this calls)
  = (λ cw, negb (IsPermanentFailure (fst cw))
           && (LD.reading this cw <? LD.deadline_ this)) <$> calls.
Proof.
  induction calls as [|[s w] l IH]; [reflexivity|].
  rewrite LD_OnFailures_cons, IH. reflexivity.
Qed.

Lemma sorted_lookup_le (l : list Z) (i j : nat) (x y : Z) :
  Sorted Z.le l → l !! i = Some x → l !! j = Some y → (i ≤ j)%nat → x ≤ y.
Proof.
  intros Hs. apply (Sorted_StronglySorted Z.le _) in Hs.
  revert i j x y. induction Hs as [|a l Hs IH Hall]; intros i j x y Hi Hj Hij.
  - discriminate.
  - destruct i as [|i], j as [|j]; cbn in Hi, Hj.
    + simplify_eq. lia.
    + simplify_eq. rewrite Forall_forall in Hall.
      apply Hall, list_elem_of_lookup. eauto.
    + lia.
    + apply (IH i j x y); [assumption..|lia].
Qed.

(** With a clock that does not go back, a reading at or past the deadline
    is followed by such readings only. *)
Lemma late_call_false this calls (i j : nat) (cw cw' : S * W) :
  Sorted Z.le (LD.reading this <$> calls) →
  calls !! i = Some cw →
  LD.deadline_ this ≤ LD.reading this cw →
  (i ≤ j)%nat →
  calls !! j = Some cw' →
  fst (LD.OnFailures this calls) !! j = Some false.
Proof.
  intros Hs Hi Hd Hij Hj.
  rewrite LD_OnFailures_results, list_lookup_fmap, Hj. cbn. f_equal.
  assert (LD.reading this cw ≤ LD.reading this cw') as Hle.
  { apply (sorted_lookup_le (LD.reading this <$> calls) i j); try assumption.
    - rewrite list_lookup_fmap, Hi. reflexivity.
    - rewrite list_lookup_fmap, Hj. reflexivity. }
  apply andb_false_intro2, Z.ltb_ge. lia.
Qed.

(** The same, from a reading taken by anyone before the calls. *)
Lemma after_deadline_false this calls (t0 : Chrono.time_point) :
  Sorted Z.le (t0 :: (LD.reading this <$> calls)) →
  LD.deadline_ this ≤ t0 →
  fst (LD.OnFailures this calls) = replicate (length calls) false.
Proof.
  intros Hs Hd. apply (Sorted_StronglySorted Z.le _) in Hs.
  apply StronglySorted_inv in Hs as [_ Hall].
  rewrite LD_OnFailures_results.
  induction calls as [|cw l IH]; [reflexivity|].
  rewrite fmap_cons in Hall. apply Forall_cons in Hall as [Hcw Hl].
  cbn [fmap list_fmap length replicate]. f_equal.
  - apply andb_false_intro2, Z.ltb_ge. lia.
  - apply IH, Hl.
Qed.

End DurationFacts.

(** * The specification, statement by statement *)

Section ErrorCountClaims.
Context {S : Type} `{Status S} {C : Type}.

(** C1, as amended.  A call of [LimitedErrorCountRetryPolicy::OnFailure]
    with a status that is not a permanent failure adds exactly one to the
    failure counter, whatever the call returns, the counter being below
    [INT_MAX]; with a permanent failure the right operand of [&&] is not
    evaluated and the counter keeps its value. *)
Theorem OnFailure_counter_step (this : LEC.t C) (status : S) :
  Int.INT_MIN ≤ LEC.failure_count_ this < Int.INT_MAX
  ∨ IsPermanentFailure status = true →
  LEC.failure_count_ (snd (LEC.OnFailure this status))
  = LEC.failure_count_ this + (if IsPermanentFailure status then 0 else 1).
Proof.
  intros Hcase. destruct (IsPermanentFailure status) eqn:Hs.
  - rewrite (OnFailure_permanent _ _ Hs). cbn [snd]. lia.
  - destruct Hcase as [Hrange|Hperm]; [|discriminate].
    rewrite (OnFailure_transient _ _ Hs). cbn [snd LEC.with_count LEC.failure_count_].
    apply succ_below_INT_MAX, Hrange.
Qed.

(** C2, as amended.  A policy constructed with [max_failures = N], for
    [0 ≤ N < INT_MAX], and fed [N + 1] failures none of which is permanent
    answers [true] to the first [N] and [false] to the last; the counter
    reads 1, 2, ..., N + 1 after the successive calls, so it goes up at
    every call. *)
Theorem N_retries_then_stop (N : Z) (rpc_duration : Chrono.duration) (c : C)
    (statuses : list S) :
  0 ≤ N < Int.INT_MAX →
  Forall (λ s, IsPermanentFailure s = false) statuses →
  Z.of_nat (length statuses) = N + 1 →
  let this := LEC.ctor N rpc_duration c in
  fst (LEC.OnFailures this statuses) = replicate (Z.to_nat N) true ++ [false]
  ∧ LEC.counters this statuses = seqZ 1 (N + 1)
  ∧ ∀ (i j : nat) (x y : Z),
      (i < j)%nat →
      (LEC.failure_count_ this :: LEC.counters this statuses) !! i = Some x →
      (LEC.failure_count_ this :: LEC.counters this statuses) !! j = Some y →
      x < y.
Proof.
  intros HN Hall Hlen this.
  assert (Hcounters : LEC.counters this statuses = seqZ 1 (N + 1)).
  { rewrite transient_run_counters; cbn [this LEC.ctor LEC.failure_count_];
      [rewrite Hlen; reflexivity|assumption|..];
      unfold Int.INT_MIN, Int.INT_MAX in *; lia. }
  split; [|split; [exact Hcounters|]].
  - destruct (@exists_last _ statuses) as [l [s ->]].
    { intros ->. cbn in Hlen. lia. }
    rewrite length_app in Hlen. cbn [length] in Hlen.
    apply Forall_app in Hall as [Hl Hs]. rewrite Forall_singleton in Hs.
    rewrite OnFailures_app. cbn [fst].
    assert (Z.to_nat N = length l) as -> by lia.
    rewrite transient_run_true, transient_run_state;
      cbn [this LEC.ctor LEC.failure_count_ LEC.max_failures_];
      try assumption; unfold Int.INT_MIN, Int.INT_MAX in *; try lia.
    f_equal. rewrite OnFailures_cons. cbn [LEC.OnFailures fst].
    rewrite (OnFailure_transient _ _ Hs).
    cbn [fst LEC.with_count LEC.failure_count_ LEC.max_failures_].
    f_equal. apply Z.ltb_ge. cbn [this LEC.ctor LEC.max_failures_]. lia.
  - rewrite Hcounters. change (LEC.failure_count_ this) with 0.
    assert (Hseq : 0 :: seqZ 1 (N + 1) = seqZ 0 (N + 2)).
    { rewrite (seqZ_cons 0) by lia. f_equal. f_equal; lia. }
    rewrite Hseq. intros i j x y Hij [-> _]%lookup_seqZ [-> _]%lookup_seqZ. lia.
Qed.

End ErrorCountClaims.

(** ** Calls through the interface and objects on the free store *)
Section InterfaceFacts.
Context {S W P : Type} {policy : RetryPolicy S W P}.

Lemma do_calls_cons (this : P) (c : call S) (w : W) (cs : list (call S * W)) :
  do_calls this ((c, w) :: cs)
  = (fst (do_call this c w) :: fst (do_calls (snd (do_call this c w)) cs),
     snd (do_calls (snd (do_call this c w)) cs)).
Proof.
  cbn [do_calls]. destruct (do_call this c w) as [r this']. cbn [fst snd].
  destruct (do_calls this' cs) as [rs last]. reflexivity.
Qed.

Lemma policy_run_cons (this : P) (status : S) (w : W) (calls : list (S * W)) :
  policy_run this ((status, w) :: calls)
  = (fst (OnFailure this status w)
       :: fst (policy_run (snd (OnFailure this status w)) calls),
     snd (policy_run (snd (OnFailure this status w)) calls)).
Proof.
  cbn [policy_run]. destruct (OnFailure this status w) as [b this']. cbn [fst snd].
  destruct (policy_run this' calls) as [bs last]. reflexivity.
Qed.

(** Calls on the object at [l] are the calls on the object, and write at
    [l] only. *)
Lemma OnFailures_at_run (h : gmap positive P) (l : positive) (this : P)
    (calls : list (S * W)) :
  h !! l = Some this →
  OnFailures_at h l calls
  = Some (fst (policy_run this calls), <[l := snd (policy_run this calls)]> h).
Proof.
  revert h this. induction calls as [|[status w] calls IH]; intros h this Hl.
  - cbn. rewrite insert_id by exact Hl. reflexivity.
  - rewrite policy_run_cons. cbn [OnFailures_at fst snd].
    unfold OnFailure_at. rewrite Hl. cbn [mbind option_bind].
    destruct (OnFailure this status w) as [b this'] eqn:E. cbn [mbind option_bind fst snd].
    rewrite (IH (<[l := this']> h) this') by apply lookup_insert_eq.
    cbn [mbind option_bind]. rewrite insert_insert_eq. reflexivity.
Qed.

(** [clone()] makes its object at an address of its own.  Calls on the
    clone are answered as the clone answers them and leave the source as it
    was; calls on the source afterwards are answered as the source answers
    them and leave the clone as it was. *)
Lemma clone_at_independent (h : gmap positive P) (l : positive) (this : P) (w : W) :
  ∃ l' h',
    clone_at (<[l := this]> h) l w = Some (l', h')
    ∧ l' ≠ l
    ∧ h' !! l = Some this
    ∧ h' !! l' = Some (clone this w)
    ∧ ∀ (calls : list (S * W)),
        ∃ h'',
          OnFailures_at h' l' calls
          = Some (fst (policy_run (clone this w) calls), h'')
          ∧ h'' !! l = Some this
          ∧ h'' !! l' = Some (snd (policy_run (clone this w) calls))
          ∧ ∀ (later : list (S * W)),
              ∃ h''',
                OnFailures_at h'' l later
                = Some (fst (policy_run this later), h''')
                ∧ h''' !! l = Some (snd (policy_run this later))
                ∧ h''' !! l' = Some (snd (policy_run (clone this w) calls)).
Proof.
  set (h0 := <[l := this]> h).
  set (l' := fresh (dom h0)).
  assert (Hfresh : l' ∉ dom h0) by apply is_fresh.
  assert (Hne : l' ≠ l).
  { intros ->. apply Hfresh. subst h0. rewrite dom_insert. set_solver. }
  assert (Hl0 : h0 !! l = Some this) by (subst h0; apply lookup_insert_eq).
  exists l', (<[l' := clone this w]> h0).
  split; [|split; [exact Hne|split; [|split]]].
  - unfold clone_at. rewrite Hl0. reflexivity.
  - rewrite lookup_insert_ne by exact Hne. exact Hl0.
  - apply lookup_insert_eq.
  - intros calls.
    rewrite (OnFailures_at_run _ l' (clone this w)) by apply lookup_insert_eq.
    eexists. split; [reflexivity|]. rewrite insert_insert_eq.
    split; [|split].
    + rewrite lookup_insert_ne by exact Hne. exact Hl0.
    + apply lookup_insert_eq.
    + intros later.
      rewrite (OnFailures_at_run _ l this)
        by (rewrite lookup_insert_ne by exact Hne; exact Hl0).
      eexists. split; [reflexivity|]. split.
      * apply lookup_insert_eq.
      * rewrite lookup_insert_ne by congruence. apply lookup_insert_eq.
Qed.

End InterfaceFacts.

(** ** What the bodies read and write *)
Section BodyFacts.
Context {S : Type} `{Status S} {C W : Type} `{Clock C W}.
Context {F O : Type} `{Members F O C}.
Variable ticks_per_ms : positive.

(** An expression that contains no assignment leaves the object as it
    was. *)
Lemma eval_no_writes (e : expr F) (this : O) (w : W) :
  writes e = [] → snd (eval ticks_per_ms e this w) = this.
Proof.
  revert this. induction e as [f|f| |a IHa b IHb|a IHa b IHb]; intros this Hw;
    cbn [eval writes] in *; try reflexivity; try discriminate.
  - apply app_eq_nil in Hw as [Ha Hb].
    specialize (IHa this Ha).
    destruct (eval ticks_per_ms a this w) as [x this1]. cbn [snd] in IHa. subst this1.
    specialize (IHb this Hb).
    destruct (eval ticks_per_ms b this w) as [y this2]. exact IHb.
  - apply app_eq_nil in Hw as [Ha Hb].
    specialize (IHa this Ha).
    destruct (eval ticks_per_ms a this w) as [x this1]. cbn [snd] in IHa. subst this1.
    specialize (IHb this Hb).
    destruct (eval ticks_per_ms b this w) as [y this2]. exact IHb.
Qed.

Lemma eval_cond_no_writes (c : cond F) (this : O) (status : S) (w : W) :
  cond_writes c = [] → snd (eval_cond ticks_per_ms c this status w) = this.
Proof.
  revert this. induction c as [|a b|a IHa b IHb]; intros this Hw;
    cbn [eval_cond cond_writes] in *.
  - reflexivity.
  - apply app_eq_nil in Hw as [Ha Hb].
    pose proof (eval_no_writes a this w Ha) as Hx.
    destruct (eval ticks_per_ms a this w) as [x this1]. cbn [snd] in Hx. subst this1.
    pose proof (eval_no_writes b this w Hb) as Hy.
    destruct (eval ticks_per_ms b this w) as [y this2]. exact Hy.
  - apply app_eq_nil in Hw as [Ha Hb].
    specialize (IHa this Ha).
    destruct (eval_cond ticks_per_ms a this status w) as [x this1].
    cbn [snd] in IHa. subst this1.
    destruct x; [apply IHb, Hb|reflexivity].
Qed.

Section Runs.
Variables (on_failure : cond F) (operation_deadline : expr F).
Hypothesis deadline_reads_only : writes operation_deadline = [].

Local Abbreviation run := (run_calls ticks_per_ms on_failure operation_deadline).
Local Abbreviation step := (run_call ticks_per_ms on_failure operation_deadline).

Lemma run_calls_cons (this : O) (c : call S) (w : W) (cs : list (call S * W)) :
  run this ((c, w) :: cs)
  = (fst (step this c w) :: fst (run (snd (step this c w)) cs),
     snd (run (snd (step this c w)) cs)).
Proof.
  cbn [run_calls]. destruct (step this c w) as [r this']. cbn [fst snd].
  destruct (run this' cs) as [rs last]. reflexivity.
Qed.

Lemma run_call_deadline (this : O) (w : W) :
  step this CallOperationDeadline w
  = (Deadline (fst (eval ticks_per_ms operation_deadline this w)), this).
Proof.
  cbn [run_call].
  pose proof (eval_no_writes operation_deadline this w deadline_reads_only) as Hs.
  destruct (eval ticks_per_ms operation_deadline this w) as [t this'].
  cbn [fst snd] in *. subst this'. reflexivity.
Qed.

Lemma run_call_OnFailure_reply (this : O) (status : S) (w : W) :
  is_Retry (fst (step this (CallOnFailure status) w)) = true.
Proof.
  cbn [run_call]. destruct (eval_cond ticks_per_ms on_failure this status w).
  reflexivity.
Qed.

(** Asking for the deadline over and over, at one moment. *)
Lemma run_repeated_deadline (this : O) (w : W) (n : nat) :
  run this (replicate n (CallOperationDeadline, w))
  = (replicate n (Deadline (fst (eval ticks_per_ms operation_deadline this w))),
     this).
Proof.
  induction n as [|n IH]; [reflexivity|].
  cbn [replicate]. rewrite run_calls_cons, run_call_deadline. cbn [fst snd].
  rewrite IH. reflexivity.
Qed.

(** Dropping the calls of [OperationDeadline] from a run changes neither
    the answers of [OnFailure] nor the state the run ends in. *)
Lemma run_erase_deadline (this : O) (cs : list (call S * W)) :
  snd (run this cs) = snd (run this (List.filter is_OnFailure cs))
  ∧ List.filter is_Retry (fst (run this cs))
    = fst (run this (List.filter is_OnFailure cs)).
Proof.
  revert this. induction cs as [|[c w] cs IH]; intros this; [split; reflexivity|].
  rewrite run_calls_cons. destruct c as [status|].
  - cbn [List.filter is_OnFailure fst]. rewrite run_calls_cons. cbn [fst snd].
    cbn [List.filter]. rewrite run_call_OnFailure_reply.
    destruct (IH (snd (step this (CallOnFailure status) w))) as [-> ->].
    split; reflexivity.
  - rewrite run_call_deadline.
    cbn [List.filter is_OnFailure fst snd is_Retry]. apply IH.
Qed.

End Runs.
End BodyFacts.

(** The bodies evaluate to the member functions. *)
Section BodiesAgree.
Context {S : Type} `{Status S} {C W : Type} `{Clock C W}.
Variable ticks_per_ms : positive.

Lemma LEC_OnFailure_body_eval (this : LEC.t C) (status : S) (w : W) :
  eval_cond ticks_per_ms LEC.OnFailure_body this status w
  = LEC.OnFailure this status.
Proof.
  unfold LEC.OnFailure. cbn [eval_cond LEC.OnFailure_body].
  destruct (IsPermanentFailure status); reflexivity.
Qed.

Lemma LEC_OperationDeadline_body_eval (this : LEC.t C) (w : W) :
  eval ticks_per_ms LEC.OperationDeadline_body this w
  = (LEC.OperationDeadline ticks_per_ms this w, this).
Proof. reflexivity. Qed.

Lemma LD_OnFailure_body_eval (this : LD.t C) (status : S) (w : W) :
  eval_cond ticks_per_ms LD.OnFailure_body this status w
  = LD.OnFailure this status w.
Proof.
  unfold LD.OnFailure. cbn [eval_cond LD.OnFailure_body].
  destruct (IsPermanentFailure status); reflexivity.
Qed.

Lemma LD_OperationDeadline_body_eval (this : LD.t C) (w : W) :
  eval ticks_per_ms LD.OperationDeadline_body this w
  = (LD.OperationDeadline ticks_per_ms this w, this).
Proof. reflexivity. Qed.

(** Runs through the interface, class by class. *)
Lemma LEC_policy_run (this : LEC.t C) (calls : list (S * W)) :
  policy_run (policy := LimitedErrorCount_RetryPolicy ticks_per_ms) this calls
  = LEC.OnFailures this (fst <$> calls).
Proof.
  revert this. induction calls as [|[status w] calls IH]; intros this; [reflexivity|].
  rewrite policy_run_cons, fmap_cons, OnFailures_cons, !IH. reflexivity.
Qed.

Lemma LD_policy_run (this : LD.t C) (calls : list (S * W)) :
  policy_run (policy := LimitedDuration_RetryPolicy ticks_per_ms) this calls
  = LD.OnFailures this calls.
Proof.
  revert this. induction calls as [|[status w] calls IH]; intros this; [reflexivity|].
  rewrite policy_run_cons, LD_OnFailures_cons, !IH. reflexivity.
Qed.

End BodiesAgree.

Section Claims.
Context {S : Type} `{Status S} {C W : Type} `{Clock C W}.
Variable ticks_per_ms : positive.

Local Abbreviation cast := Chrono.duration_cast_milliseconds.
Local Abbreviation tpm := (Z.pos ticks_per_ms).

(** C3, as amended.  [LimitedDurationRetryPolicy::OperationDeadline] never
    returns a time after [deadline_].  When [rpc_duration_] in ticks and its
    sum with the current reading fit in the 64 bits of a time point, it
    returns the smaller of [deadline_] and that sum; and when the maximum
    duration in ticks and its sum with the reading taken by the constructor
    fit, [deadline_] is that sum, whatever calls of [OnFailure] came in
    between. *)
Theorem duration_OperationDeadline_is_min
    (this : LD.t C) (w : W)
    (max_duration rpc_duration : Chrono.duration) (c : C) (w0 : W)
    (calls : list (S * W)) :
  LD.OperationDeadline ticks_per_ms this w ≤ LD.deadline_ this
  ∧ (Int64.in_range (LD.rpc_duration_ this * tpm) →
     Int64.in_range (now (LD.c_ this) w + LD.rpc_duration_ this * tpm) →
     LD.OperationDeadline ticks_per_ms this w
     = Z.min (LD.deadline_ this) (now (LD.c_ this) w + LD.rpc_duration_ this * tpm))
  ∧ (Int64.in_range (cast max_duration * tpm) →
     Int64.in_range (now c w0 + cast max_duration * tpm) →
     LD.deadline_
       (snd (LD.OnFailures (LD.ctor ticks_per_ms max_duration rpc_duration c w0) calls))
     = now c w0 + cast max_duration * tpm).
Proof.
  split_and!.
  - unfold LD.OperationDeadline. rewrite std_min_min. lia.
  - intros Hr Hsum. unfold LD.OperationDeadline.
    rewrite std_min_min, time_point_plus_exact by assumption. reflexivity.
  - intros Hr Hsum. rewrite LD_OnFailures_state. cbn [LD.ctor LD.deadline_].
    apply duration_plus_time_point_exact; assumption.
Qed.

(** C4.  With a status classified as a permanent failure, [OnFailure] of
    either class returns [false], whatever the counter or the time left. *)
Theorem permanent_failure_is_not_retried
    (p : LEC.t C) (q : LD.t C) (status : S) (w : W) :
  IsPermanentFailure status = true →
  fst (LEC.OnFailure p status) = false ∧ fst (LD.OnFailure q status w) = false.
Proof.
  intros Hs. split.
  - rewrite (OnFailure_permanent _ _ Hs). reflexivity.
  - unfold LD.OnFailure. rewrite Hs. reflexivity.
Qed.

(** C5, as amended.  [clone()] of either class, taken in any state, is the
    object the constructor makes from the same configuration and clock at
    the time of the clone: no failure is counted, and the deadline is
    computed anew from the reading at that time and the maximum duration
    (their sum, when the maximum duration in ticks and the sum fit in 64
    bits).  On the free store the clone lives at an address of its own:
    calls on the clone are answered as a new policy answers them and leave
    the source as it was, and calls on the source afterwards are answered as
    if no clone had been made and leave the clone as it was. *)
Theorem clone_is_fresh :
  (∀ (this : LEC.t C),
      LEC.clone this = LEC.with_count this 0
      ∧ LEC.failure_count_ (LEC.clone this) = 0)
  ∧ (∀ (max_failures : Z) (rpc_duration : Chrono.duration) (c : C)
       (statuses : list S),
      LEC.clone (snd (LEC.OnFailures (LEC.ctor max_failures rpc_duration c) statuses))
      = LEC.ctor max_failures rpc_duration c)
  ∧ (∀ (this : LD.t C) (w : W),
      LD.c_ (LD.clone ticks_per_ms this w) = LD.c_ this
      ∧ LD.rpc_duration_ (LD.clone ticks_per_ms this w) = LD.rpc_duration_ this
      ∧ LD.max_duration_ (LD.clone ticks_per_ms this w) = LD.max_duration_ this
      ∧ (Int64.in_range (LD.max_duration_ this * tpm) →
         Int64.in_range (now (LD.c_ this) w + LD.max_duration_ this * tpm) →
         LD.deadline_ (LD.clone ticks_per_ms this w)
         = now (LD.c_ this) w + LD.max_duration_ this * tpm))
  ∧ (∀ (max_duration rpc_duration : Chrono.duration) (c : C) (w0 : W)
       (calls : list (S * W)) (w : W),
      LD.clone ticks_per_ms
        (snd (LD.OnFailures (LD.ctor ticks_per_ms max_duration rpc_duration c w0) calls)) w
      = LD.ctor ticks_per_ms max_duration rpc_duration c w)
  ∧ (∀ (h : gmap positive (LEC.t C)) (l : positive)
       (max_failures : Z) (rpc_duration : Chrono.duration) (c : C)
       (before : list S) (w : W) (calls later : list (S * W)),
      let this :=
        snd (LEC.OnFailures (LEC.ctor max_failures rpc_duration c) before) in
      ∃ l' h1 h2 h3,
        clone_at (policy := LimitedErrorCount_RetryPolicy ticks_per_ms)
          (<[l := this]> h) l w = Some (l', h1)
        ∧ l' ≠ l
        ∧ h1 !! l = Some this
        ∧ OnFailures_at (policy := LimitedErrorCount_RetryPolicy ticks_per_ms)
            h1 l' calls
          = Some (fst (LEC.OnFailures (LEC.ctor max_failures rpc_duration c)
                         (fst <$> calls)), h2)
        ∧ h2 !! l = Some this
        ∧ OnFailures_at (policy := LimitedErrorCount_RetryPolicy ticks_per_ms)
            h2 l later
          = Some (fst (LEC.OnFailures this (fst <$> later)), h3)
        ∧ h3 !! l'
          = Some (snd (LEC.OnFailures (LEC.ctor max_failures rpc_duration c)
                         (fst <$> calls))))
  ∧ (∀ (h : gmap positive (LD.t C)) (l : positive)
       (max_duration rpc_duration : Chrono.duration) (c : C) (w0 : W)
       (before : list (S * W)) (w : W) (calls later : list (S * W)),
      let this :=
        snd (LD.OnFailures (LD.ctor ticks_per_ms max_duration rpc_duration c w0) before) in
      ∃ l' h1 h2 h3,
        clone_at (policy := LimitedDuration_RetryPolicy ticks_per_ms)
          (<[l := this]> h) l w = Some (l', h1)
        ∧ l' ≠ l
        ∧ h1 !! l = Some this
        ∧ OnFailures_at (policy := LimitedDuration_RetryPolicy ticks_per_ms)
            h1 l' calls
          = Some (fst (LD.OnFailures
                         (LD.ctor ticks_per_ms max_duration rpc_duration c w) calls), h2)
        ∧ h2 !! l = Some this
        ∧ OnFailures_at (policy := LimitedDuration_RetryPolicy ticks_per_ms)
            h2 l later
          = Some (fst (LD.OnFailures this later), h3)
        ∧ h3 !! l'
          = Some (LD.ctor ticks_per_ms max_duration rpc_duration c w)).
Proof.
  assert (Hlec : ∀ this : LEC.t C, LEC.clone this = LEC.with_count this 0).
  { intros this. reflexivity. }
  assert (Hlec_ctor : ∀ max_failures rpc_duration (c : C) (statuses : list S),
    LEC.clone (snd (LEC.OnFailures (LEC.ctor max_failures rpc_duration c) statuses))
    = LEC.ctor max_failures rpc_duration c).
  { intros. rewrite Hlec, OnFailures_with_count. reflexivity. }
  assert (Hld_ctor : ∀ max_duration rpc_duration (c : C) (w0 : W)
                       (calls : list (S * W)) (w : W),
    LD.clone ticks_per_ms
      (snd (LD.OnFailures (LD.ctor ticks_per_ms max_duration rpc_duration c w0) calls)) w
    = LD.ctor ticks_per_ms max_duration rpc_duration c w).
  { intros. rewrite LD_OnFailures_state. reflexivity. }
  split_and!.
  - intros this. split; [apply Hlec|]. rewrite Hlec. reflexivity.
  - exact Hlec_ctor.
  - intros this w. split_and!; try reflexivity.
    intros Hr Hsum. unfold LD.clone, LD.copy_ctor, LD.ctor. cbv zeta.
    cbn [LD.deadline_]. rewrite !duration_cast_of_milliseconds.
    apply duration_plus_time_point_exact; assumption.
  - exact Hld_ctor.
  - intros h l max_failures rpc_duration c before w calls later this.
    destruct (clone_at_independent
      (policy := LimitedErrorCount_RetryPolicy ticks_per_ms) h l this w)
      as (l' & h1 & Hc & Hne & Hl & Hl' & Hcalls).
    destruct (Hcalls calls) as (h2 & Hrun & Hsrc & Hclone & Hlater).
    destruct (Hlater later) as (h3 & Hrun' & _ & Hclone').
    exists l', h1, h2, h3.
    rewrite LEC_policy_run in Hrun, Hclone, Hclone'. rewrite LEC_policy_run in Hrun'.
    change (clone (RetryPolicy := LimitedErrorCount_RetryPolicy ticks_per_ms) this w)
      with (LEC.clone this) in *.
    unfold this in Hrun, Hclone, Hclone'. rewrite Hlec_ctor in Hrun, Hclone, Hclone'.
    split_and!; assumption.
  - intros h l max_duration rpc_duration c w0 before w calls later this.
    destruct (clone_at_independent
      (policy := LimitedDuration_RetryPolicy ticks_per_ms) h l this w)
      as (l' & h1 & Hc & Hne & Hl & Hl' & Hcalls).
    destruct (Hcalls calls) as (h2 & Hrun & Hsrc & Hclone & Hlater).
    destruct (Hlater later) as (h3 & Hrun' & _ & Hclone').
    exists l', h1, h2, h3.
    rewrite LD_policy_run in Hrun, Hclone, Hclone'. rewrite LD_policy_run in Hrun'.
    change (clone (RetryPolicy := LimitedDuration_RetryPolicy ticks_per_ms) this w)
      with (LD.clone ticks_per_ms this w) in *.
    unfold this in Hrun, Hclone, Hclone'. rewrite Hld_ctor in Hrun, Hclone, Hclone'.
    rewrite LD_OnFailures_state in Hclone'.
    split_and!; assumption.
Qed.

(** C6, as amended.  With a status that is not a permanent failure,
    [LimitedDurationRetryPolicy::OnFailure] returns [true] exactly when the
    current reading is strictly before [deadline_], and [false] when it is
    at or past it.  When the maximum duration in ticks and its sum with the
    reading taken by the constructor fit in 64 bits, [deadline_] is that
    sum: the time of the construction plus the maximum duration. *)
Theorem duration_OnFailure_transient
    (this : LD.t C) (status : S) (w : W)
    (max_duration rpc_duration : Chrono.duration) (c : C) (w0 : W)
    (calls : list (S * W)) :
  IsPermanentFailure status = false →
  (fst (LD.OnFailure this status w) = true ↔ now (LD.c_ this) w < LD.deadline_ this)
  ∧ (fst (LD.OnFailure this status w) = false ↔ LD.deadline_ this ≤ now (LD.c_ this) w)
  ∧ (Int64.in_range (cast max_duration * tpm) →
     Int64.in_range (now c w0 + cast max_duration * tpm) →
     let built :=
       snd (LD.OnFailures (LD.ctor ticks_per_ms max_duration rpc_duration c w0) calls) in
     (fst (LD.OnFailure built status w) = true
        ↔ now c w < now c w0 + cast max_duration * tpm)
     ∧ (fst (LD.OnFailure built status w) = false
        ↔ now c w0 + cast max_duration * tpm ≤ now c w)).
Proof.
  intros Hs.
  assert (Hon : ∀ p : LD.t C,
    fst (LD.OnFailure p status w) = (now (LD.c_ p) w <? LD.deadline_ p)).
  { intros p. unfold LD.OnFailure. rewrite Hs. reflexivity. }
  split_and!.
  - rewrite Hon. apply Z.ltb_lt.
  - rewrite Hon. apply Z.ltb_ge.
  - intros Hr Hsum. cbv zeta. rewrite LD_OnFailures_state, Hon.
    cbn [LD.ctor LD.c_ LD.deadline_].
    rewrite duration_plus_time_point_exact by assumption.
    split; [apply Z.ltb_lt|apply Z.ltb_ge].
Qed.

(** C7, as amended.  [LimitedErrorCountRetryPolicy::OperationDeadline]
    returns the reading of the clock at the call plus [rpc_duration_], in
    every state, when [rpc_duration_] in ticks and the sum fit in the 64
    bits of a time point; [rpc_duration_] is the duration the constructor
    was given, cast to whole milliseconds, and no call of [OnFailure]
    changes it. *)
Theorem error_count_OperationDeadline
    (this : LEC.t C) (w : W)
    (max_failures : Z) (rpc_duration : Chrono.duration) (c : C)
    (statuses : list S) (m : Chrono.milliseconds) :
  (Int64.in_range (LEC.rpc_duration_ this * tpm) →
   Int64.in_range (now (LEC.c_ this) w + LEC.rpc_duration_ this * tpm) →
   LEC.OperationDeadline ticks_per_ms this w
   = now (LEC.c_ this) w + LEC.rpc_duration_ this * tpm)
  ∧ (Int64.in_range (cast rpc_duration * tpm) →
     Int64.in_range (now c w + cast rpc_duration * tpm) →
     LEC.OperationDeadline ticks_per_ms
       (snd (LEC.OnFailures (LEC.ctor max_failures rpc_duration c) statuses)) w
     = now c w + cast rpc_duration * tpm)
  ∧ (Int64.in_range (m * tpm) →
     Int64.in_range (now c w + m * tpm) →
     LEC.OperationDeadline ticks_per_ms
       (snd (LEC.OnFailures (LEC.ctor max_failures (Chrono.of_milliseconds m) c)
               statuses)) w
     = now c w + m * tpm).
Proof.
  assert (Hgen : ∀ p : LEC.t C,
    Int64.in_range (LEC.rpc_duration_ p * tpm) →
    Int64.in_range (now (LEC.c_ p) w + LEC.rpc_duration_ p * tpm) →
    LEC.OperationDeadline ticks_per_ms p w
    = now (LEC.c_ p) w + LEC.rpc_duration_ p * tpm).
  { intros p Hr Hsum. unfold LEC.OperationDeadline.
    apply time_point_plus_exact; assumption. }
  split_and!.
  - apply Hgen.
  - intros Hr Hsum. rewrite OnFailures_with_count. apply Hgen; assumption.
  - intros Hr Hsum. rewrite OnFailures_with_count. apply Hgen; assumption.
Qed.

(** C8.  In both classes the body of [OperationDeadline] assigns to no data
    member, so evaluating it returns the deadline and leaves the object as
    it was: asked [n] times at one moment it gives [n] times the same
    value, and a run of calls with the calls of [OperationDeadline] dropped
    ends in the same state and gets the same answers from [OnFailure], so
    the later results of either member are those of the run without them.
    What is written is written by [OnFailure]: in
    [LimitedErrorCountRetryPolicy] its body assigns to [failure_count_]
    only, and does so at every failure that is not permanent; in
    [LimitedDurationRetryPolicy] its body assigns to nothing; and
    [clone()] makes a new object and leaves its source as it was. *)
Theorem OperationDeadline_is_pure
    (p : LEC.t C) (q : LD.t C) (status : S) (w w' : W) (n : nat)
    (cs : list (call S * W))
    (hp : gmap positive (LEC.t C)) (hq : gmap positive (LD.t C)) (l : positive) :
  let run_count :=
    run_calls ticks_per_ms LEC.OnFailure_body LEC.OperationDeadline_body in
  let run_duration :=
    run_calls ticks_per_ms LD.OnFailure_body LD.OperationDeadline_body in
  (writes (LEC.OperationDeadline_body) = []
   ∧ writes (LD.OperationDeadline_body) = []
   ∧ cond_writes (LEC.OnFailure_body) = [LEC.m_failure_count]
   ∧ cond_writes (LD.OnFailure_body) = [])
  ∧ (eval ticks_per_ms LEC.OperationDeadline_body p w
     = (LEC.OperationDeadline ticks_per_ms p w, p)
     ∧ run_count p (replicate n (CallOperationDeadline, w))
       = (replicate n (Deadline (LEC.OperationDeadline ticks_per_ms p w)), p)
     ∧ snd (run_count p cs) = snd (run_count p (List.filter is_OnFailure cs))
     ∧ List.filter is_Retry (fst (run_count p cs))
       = fst (run_count p (List.filter is_OnFailure cs))
     ∧ LEC.OperationDeadline ticks_per_ms (snd (run_count p cs)) w'
       = LEC.OperationDeadline ticks_per_ms
           (snd (run_count p (List.filter is_OnFailure cs))) w')
  ∧ (eval ticks_per_ms LD.OperationDeadline_body q w
     = (LD.OperationDeadline ticks_per_ms q w, q)
     ∧ run_duration q (replicate n (CallOperationDeadline, w))
       = (replicate n (Deadline (LD.OperationDeadline ticks_per_ms q w)), q)
     ∧ snd (run_duration q cs) = snd (run_duration q (List.filter is_OnFailure cs))
     ∧ List.filter is_Retry (fst (run_duration q cs))
       = fst (run_duration q (List.filter is_OnFailure cs))
     ∧ LD.OperationDeadline ticks_per_ms (snd (run_duration q cs)) w'
       = LD.OperationDeadline ticks_per_ms
           (snd (run_duration q (List.filter is_OnFailure cs))) w')
  ∧ (eval_cond ticks_per_ms LEC.OnFailure_body p status w = LEC.OnFailure p status
     ∧ snd (LEC.OnFailure p status)
       = LEC.with_count p (LEC.failure_count_ (snd (LEC.OnFailure p status)))
     ∧ (IsPermanentFailure status = false → snd (LEC.OnFailure p status) ≠ p)
     ∧ eval_cond ticks_per_ms LD.OnFailure_body q status w = LD.OnFailure q status w
     ∧ snd (LD.OnFailure q status w) = q)
  ∧ ((∃ l' h',
        clone_at (policy := LimitedErrorCount_RetryPolicy ticks_per_ms)
          (<[l := p]> hp) l w = Some (l', h')
        ∧ l' ≠ l ∧ h' !! l = Some p)
     ∧ (∃ l' h',
          clone_at (policy := LimitedDuration_RetryPolicy ticks_per_ms)
            (<[l := q]> hq) l w = Some (l', h')
          ∧ l' ≠ l ∧ h' !! l = Some q)).
Proof.
  intros run_count run_duration.
  assert (Hcw : writes (LEC.OperationDeadline_body) = []) by reflexivity.
  assert (Hdw : writes (LD.OperationDeadline_body) = []) by reflexivity.
  destruct (run_erase_deadline ticks_per_ms LEC.OnFailure_body
              LEC.OperationDeadline_body Hcw p cs) as [Hp Hp'].
  destruct (run_erase_deadline ticks_per_ms LD.OnFailure_body
              LD.OperationDeadline_body Hdw q cs) as [Hq Hq'].
  split; [|split; [|split; [|split; [split_and!|split]]]].
  - split_and!; reflexivity.
  - split_and!.
    + apply LEC_OperationDeadline_body_eval.
    + unfold run_count.
      rewrite (run_repeated_deadline ticks_per_ms _ _ Hcw),
        LEC_OperationDeadline_body_eval. reflexivity.
    + exact Hp.
    + exact Hp'.
    + unfold run_count in *. rewrite Hp. reflexivity.
  - split_and!.
    + apply LD_OperationDeadline_body_eval.
    + unfold run_duration.
      rewrite (run_repeated_deadline ticks_per_ms _ _ Hdw),
        LD_OperationDeadline_body_eval. reflexivity.
    + exact Hq.
    + exact Hq'.
    + unfold run_duration in *. rewrite Hq. reflexivity.
  - apply LEC_OnFailure_body_eval.
  - apply OnFailure_with_count.
  - intros Hs Heq. rewrite (OnFailure_transient _ _ Hs) in Heq. cbn [snd] in Heq.
    apply (f_equal LEC.failure_count_) in Heq.
    cbn [LEC.with_count LEC.failure_count_] in Heq.
    exact (succ_changes _ Heq).
  - apply LD_OnFailure_body_eval.
  - reflexivity.
  - destruct (clone_at_independent
      (policy := LimitedErrorCount_RetryPolicy ticks_per_ms) hp l p w)
      as (l' & h' & Hc & Hne & Hl & _).
    exists l', h'. split_and!; assumption.
  - destruct (clone_at_independent
      (policy := LimitedDuration_RetryPolicy ticks_per_ms) hq l q w)
      as (l' & h' & Hc & Hne & Hl & _).
    exists l', h'. split_and!; assumption.
Qed.

(** C9, as amended.  Exhaustion is kept.  In
    [LimitedErrorCountRetryPolicy], once the counter has reached the
    maximum every later call of [OnFailure] returns [false], whatever the
    status, over any run in which the counter stays below the end of
    [int] (a permanent failure does not move it).  In
    [LimitedDurationRetryPolicy], if successive readings of the clock never
    go back, then once a reading at or past [deadline_] has been taken
    every later call of [OnFailure] returns [false], whatever the status;
    so does the call that took it, if it was one. *)
Theorem exhausted_is_sticky :
  (∀ (this : LEC.t C) (statuses : list S),
      LEC.max_failures_ this ≤ LEC.failure_count_ this →
      Int.INT_MIN ≤ LEC.failure_count_ this →
      LEC.failure_count_ this + LEC.transient_count statuses ≤ Int.INT_MAX →
      fst (LEC.OnFailures this statuses) = replicate (length statuses) false)
  ∧ (∀ (this : LD.t C) (t0 : Chrono.time_point) (calls : list (S * W)),
      Sorted Z.le (t0 :: (LD.reading this <$> calls)) →
      LD.deadline_ this ≤ t0 →
      fst (LD.OnFailures this calls) = replicate (length calls) false)
  ∧ (∀ (this : LD.t C) (calls : list (S * W)) (i j : nat) (cw cw' : S * W),
      Sorted Z.le (LD.reading this <$> calls) →
      calls !! i = Some cw →
      LD.deadline_ this ≤ LD.reading this cw →
      (i ≤ j)%nat →
      calls !! j = Some cw' →
      fst (LD.OnFailures this calls) !! j = Some false).
Proof.
  split_and!.
  - intros this statuses. apply exhausted_run_false.
  - intros this t0 calls. apply after_deadline_false.
  - intros this calls i j cw cw'. apply late_call_false.
Qed.


End Claims.
(** * The code on concrete inputs *)

(** ** Scenarios *)

(** [max_failures = 3], [rpc_duration = 100ms]: three transient failures
    are retried, the fourth is not, and each deadline is the time of the
    call plus 100ms. *)
Example three_retries :
  let this := LEC.ctor 3 (Chrono.of_milliseconds 100) mkDefaultClock in
  LEC.OnFailures this (replicate 4 Fixture.Transient)
  = ([true; true; true; false], LEC.with_count this 4)
  ∧ LEC.OperationDeadline Fixture.ns_per_ms this 7000000 = 7000000 + 100 * 1000000.
Proof. split; reflexivity. Qed.

(** [max_duration = 5s], [rpc_duration = 1s], constructed at time 0: at
    4.9s a transient failure is retried and the deadline is 5s; at 5.1s it
    is not retried. *)
Example five_seconds :
  let this := LD.ctor Fixture.ns_per_ms (Chrono.of_seconds 5) (Chrono.of_seconds 1)
                mkDefaultClock 0 in
  fst (LD.OnFailure this Fixture.Transient 4900000000) = true
  ∧ LD.OperationDeadline Fixture.ns_per_ms this 4900000000 = 5000000000
  ∧ fst (LD.OnFailure this Fixture.Transient 5100000000) = false
  ∧ fst (LD.OnFailure this Fixture.Permanent 1000000000) = false.
Proof. repeat split; reflexivity. Qed.

(** The state a policy reaches after [INT_MAX] transient failures. *)
Lemma after_INT_MAX_failures (max_failures : Z) :
  let this := LEC.ctor max_failures (Chrono.of_milliseconds 100) mkDefaultClock in
  snd (LEC.OnFailures this (replicate (Z.to_nat Int.INT_MAX) Fixture.Transient))
  = LEC.with_count this Int.INT_MAX.
Proof.
  intros this.
  assert (Hlen : Z.of_nat (length (replicate (Z.to_nat Int.INT_MAX) Fixture.Transient))
                 = Int.INT_MAX).
  { rewrite length_replicate. apply Z2Nat.id. discriminate. }
  rewrite transient_run_state.
  - rewrite Hlen. reflexivity.
  - apply Forall_replicate. reflexivity.
  - discriminate.
  - rewrite Hlen. discriminate.
Qed.

(** ** C1 *)

(** C1 fails on a permanent failure: the call returns [false] and the
    counter is still 0, not 1.  It also fails after [INT_MAX] transient
    failures, where no [int] is one more than the counter. *)
Lemma permanent_failure_skips_increment :
  let this := LEC.ctor 3 (Chrono.of_milliseconds 100) mkDefaultClock in
  let full :=
    snd (LEC.OnFailures this (replicate (Z.to_nat Int.INT_MAX) Fixture.Transient)) in
  (IsPermanentFailure Fixture.Permanent = true
   ∧ LEC.OnFailure this Fixture.Permanent = (false, this)
   ∧ LEC.failure_count_ (snd (LEC.OnFailure this Fixture.Permanent))
     ≠ LEC.failure_count_ this + 1)
  ∧ (LEC.failure_count_ full = Int.INT_MAX
     ∧ LEC.failure_count_ (snd (LEC.OnFailure full Fixture.Transient))
       ≠ LEC.failure_count_ full + 1).
Proof.
  intros this full.
  assert (Hfull : full = LEC.with_count this Int.INT_MAX)
    by apply after_INT_MAX_failures.
  rewrite Hfull. repeat split; discriminate.
Qed.

Lemma OnFailure_counter_step_witness :
  let this := LEC.ctor 3 (Chrono.of_milliseconds 100) mkDefaultClock in
  let full := LEC.with_count this Int.INT_MAX in
  (Int.INT_MIN ≤ LEC.failure_count_ this < Int.INT_MAX
   ∧ LEC.failure_count_ (snd (LEC.OnFailure this Fixture.Transient))
     = LEC.failure_count_ this + 1)
  ∧ (IsPermanentFailure Fixture.Permanent = true
     ∧ LEC.failure_count_ (snd (LEC.OnFailure full Fixture.Permanent))
       = LEC.failure_count_ full + 0).
Proof.
  intros this full.
  assert (Hrange : Int.INT_MIN ≤ LEC.failure_count_ this < Int.INT_MAX)
    by (vm_compute; split; [discriminate|reflexivity]).
  assert (Hperm : IsPermanentFailure Fixture.Permanent = true) by reflexivity.
  split; (split; [assumption|]).
  - exact (OnFailure_counter_step this Fixture.Transient (or_introl Hrange)).
  - exact (OnFailure_counter_step full Fixture.Permanent (or_intror Hperm)).
Defined.

(** ** C2 *)

(** C2 fails at [N = INT_MAX]: after the [N] retried failures the counter
    is [INT_MAX], so no [int] is above it; the next call returns [false]
    and its increment leaves the counter at [INT_MIN], below what it
    was. *)
Lemma counter_cannot_pass_INT_MAX :
  let N := Int.INT_MAX in
  let this := LEC.ctor N (Chrono.of_milliseconds 100) mkDefaultClock in
  let after_N :=
    snd (LEC.OnFailures this (replicate (Z.to_nat N) Fixture.Transient)) in
  0 ≤ N
  ∧ LEC.failure_count_ after_N = N
  ∧ (∀ z, Int.in_range z → ¬ (LEC.failure_count_ after_N < z))
  ∧ LEC.OnFailure after_N Fixture.Transient = (false, LEC.with_count this Int.INT_MIN)
  ∧ ¬ (LEC.failure_count_ after_N
       < LEC.failure_count_ (snd (LEC.OnFailure after_N Fixture.Transient))).
Proof.
  intros N this after_N.
  assert (Hafter : after_N = LEC.with_count this Int.INT_MAX)
    by apply after_INT_MAX_failures.
  rewrite Hafter.
  split; [discriminate|split; [reflexivity|split; [|split; [reflexivity|]]]].
  - intros z [_ Hz]. cbn [LEC.with_count LEC.failure_count_]. lia.
  - vm_compute. discriminate.
Qed.

Lemma N_retries_then_stop_witness :
  let this := LEC.ctor 3 (Chrono.of_milliseconds 100) mkDefaultClock in
  let statuses := replicate 4 Fixture.Transient in
  fst (LEC.OnFailures this statuses) = [true; true; true; false]
  ∧ LEC.counters this statuses = [1; 2; 3; 4].
Proof.
  intros this statuses.
  assert (HN : 0 ≤ 3 < Int.INT_MAX) by (split; [discriminate|reflexivity]).
  assert (Hall : Forall (λ s, IsPermanentFailure s = false) statuses)
    by (repeat constructor).
  assert (Hlen : Z.of_nat (length statuses) = 3 + 1) by reflexivity.
  destruct (N_retries_then_stop 3 (Chrono.of_milliseconds 100) mkDefaultClock
              statuses HN Hall Hlen) as (Hanswers & Hcounters & _).
  split; [exact Hanswers|exact Hcounters].
Defined.

(** ** C3 *)

(** An attempt that would run past the overall deadline is cut at it; one
    that fits is not. *)
Example duration_deadline_is_capped :
  let this := LD.ctor Fixture.ns_per_ms (Chrono.of_seconds 5) (Chrono.of_seconds 1)
                mkDefaultClock 0 in
  LD.deadline_ this = 5000000000
  ∧ LD.OperationDeadline Fixture.ns_per_ms this 4900000000 = 5000000000
  ∧ LD.OperationDeadline Fixture.ns_per_ms this 2000000000 = 3000000000
  ∧ LD.OperationDeadline Fixture.ns_per_ms this 9000000000 = 5000000000.
Proof. repeat split; reflexivity. Qed.

(** C3 fails when the sum leaves the 64 bits of a time point: with
    [rpc_duration] the largest [std::chrono::milliseconds], a deadline at 5s
    and a reading of 4.9s, the sum wraps around and the function returns
    4.899s, which is neither the deadline nor the reading plus the
    duration. *)
Lemma huge_rpc_duration_wraps_deadline :
  let this := LD.ctor Fixture.ns_per_ms (Chrono.of_seconds 5)
                (Chrono.of_milliseconds Int64.INT64_MAX) mkDefaultClock 0 in
  LD.deadline_ this = 5000000000
  ∧ LD.rpc_duration_ this = Int64.INT64_MAX
  ∧ LD.OperationDeadline Fixture.ns_per_ms this 4900000000 = 4899000000
  ∧ Z.min (LD.deadline_ this) (4900000000 + LD.rpc_duration_ this * 1000000)
    = 5000000000.
Proof. repeat split. Qed.

Lemma duration_OperationDeadline_is_min_witness :
  let this := LD.ctor Fixture.ns_per_ms (Chrono.of_seconds 5) (Chrono.of_seconds 1)
                mkDefaultClock 0 in
  (Int64.in_range (1000 * 1000000)
   ∧ Int64.in_range (4900000000 + 1000 * 1000000)
   ∧ LD.OperationDeadline Fixture.ns_per_ms this 4900000000
     = Z.min 5000000000 (4900000000 + 1000 * 1000000))
  ∧ (Int64.in_range (5000 * 1000000)
     ∧ Int64.in_range (0 + 5000 * 1000000)
     ∧ LD.deadline_ this = 0 + 5000 * 1000000).
Proof.
  intros this.
  destruct (duration_OperationDeadline_is_min (S := Fixture.status)
              Fixture.ns_per_ms this 4900000000
              (Chrono.of_seconds 5) (Chrono.of_seconds 1) mkDefaultClock 0 [])
    as (_ & Hmin & Hdeadline).
  assert (H1 : Int64.in_range (1000 * 1000000)) by in_int64.
  assert (H2 : Int64.in_range (4900000000 + 1000 * 1000000)) by in_int64.
  assert (H3 : Int64.in_range (5000 * 1000000)) by in_int64.
  assert (H4 : Int64.in_range (0 + 5000 * 1000000)) by in_int64.
  split; (split; [assumption|split; [assumption|]]).
  - exact (Hmin H1 H2).
  - exact (Hdeadline H3 H4).
Defined.

(** ** C4 *)

Lemma permanent_failure_is_not_retried_witness :
  let p := LEC.ctor 3 (Chrono.of_milliseconds 100) mkDefaultClock in
  let q := LD.ctor Fixture.ns_per_ms (Chrono.of_seconds 5) (Chrono.of_seconds 1)
             mkDefaultClock 0 in
  IsPermanentFailure Fixture.Permanent = true
  ∧ fst (LEC.OnFailure p Fixture.Permanent) = false
  ∧ fst (LD.OnFailure q Fixture.Permanent 1000000000) = false.
Proof.
  intros p q.
  assert (Hs : IsPermanentFailure Fixture.Permanent = true) by reflexivity.
  split; [exact Hs|].
  exact (permanent_failure_is_not_retried p q Fixture.Permanent 1000000000 Hs).
Defined.

(** ** C5 *)

(** A clone taken at 3s from a policy constructed at 0 with a budget of 5s
    has its deadline at 8s, and a clone of a policy that has counted two
    failures has counted none. *)
Example clone_starts_over :
  let counted :=
    snd (LEC.OnFailures (LEC.ctor 3 (Chrono.of_milliseconds 100) mkDefaultClock)
           (replicate 2 Fixture.Transient)) in
  let timed := LD.ctor Fixture.ns_per_ms (Chrono.of_seconds 5) (Chrono.of_seconds 1)
                 mkDefaultClock 0 in
  LEC.failure_count_ counted = 2
  ∧ LEC.clone counted = LEC.ctor 3 (Chrono.of_milliseconds 100) mkDefaultClock
  ∧ LD.deadline_ timed = 5000000000
  ∧ LD.deadline_ (LD.clone Fixture.ns_per_ms timed 3000000000) = 8000000000.
Proof. repeat split; reflexivity. Qed.

(** C5 fails for the deadline of a clone when the sum leaves 64 bits: with
    [max_duration] the largest [std::chrono::milliseconds], a clone taken at
    the reading 10^18 has its deadline one millisecond before that reading,
    not the reading plus the maximum duration, and retries nothing. *)
Lemma clone_window_wraps :
  let this := LD.ctor Fixture.ns_per_ms (Chrono.of_milliseconds Int64.INT64_MAX)
                (Chrono.of_seconds 1) mkDefaultClock 0 in
  let copy := LD.clone Fixture.ns_per_ms this 1000000000000000000 in
  LD.max_duration_ copy = Int64.INT64_MAX
  ∧ LD.deadline_ copy = 999999999999000000
  ∧ LD.deadline_ copy ≠ 1000000000000000000 + LD.max_duration_ copy * 1000000
  ∧ fst (LD.OnFailure copy Fixture.Transient 1000000000000000000) = false.
Proof. repeat split. discriminate. Qed.

Lemma clone_is_fresh_witness :
  let timed := LD.ctor Fixture.ns_per_ms (Chrono.of_seconds 5) (Chrono.of_seconds 1)
                 mkDefaultClock 0 in
  Int64.in_range (5000 * 1000000)
  ∧ Int64.in_range (3000000000 + 5000 * 1000000)
  ∧ LD.deadline_ (LD.clone Fixture.ns_per_ms timed 3000000000)
    = 3000000000 + 5000 * 1000000.
Proof.
  intros timed.
  destruct (@clone_is_fresh Fixture.status _ DefaultClock Chrono.time_point _
              Fixture.ns_per_ms) as (_ & _ & Hclone & _).
  destruct (Hclone timed 3000000000) as (_ & _ & _ & Hdeadline).
  assert (H1 : Int64.in_range (5000 * 1000000)) by in_int64.
  assert (H2 : Int64.in_range (3000000000 + 5000 * 1000000)) by in_int64.
  split; [exact H1|split; [exact H2|]].
  exact (Hdeadline H1 H2).
Defined.

(** ** C6 *)

(** C6 fails when the deadline wraps around: a policy constructed at the
    reading 10^18 with [max_duration] the largest
    [std::chrono::milliseconds] refuses a transient failure at that very
    reading, although the reading is before the time of the construction
    plus the maximum duration. *)
Lemma huge_max_duration_expires_at_once :
  let this := LD.ctor Fixture.ns_per_ms (Chrono.of_milliseconds Int64.INT64_MAX)
                (Chrono.of_seconds 1) mkDefaultClock 1000000000000000000 in
  IsPermanentFailure Fixture.Transient = false
  ∧ LD.max_duration_ this = Int64.INT64_MAX
  ∧ 1000000000000000000 < 1000000000000000000 + LD.max_duration_ this * 1000000
  ∧ LD.deadline_ this = 999999999999000000
  ∧ fst (LD.OnFailure this Fixture.Transient 1000000000000000000) = false.
Proof. repeat split. Qed.

Lemma duration_OnFailure_transient_witness :
  let this := LD.ctor Fixture.ns_per_ms (Chrono.of_seconds 5) (Chrono.of_seconds 1)
                mkDefaultClock 0 in
  IsPermanentFailure Fixture.Transient = false
  ∧ Int64.in_range (5000 * 1000000)
  ∧ Int64.in_range (0 + 5000 * 1000000)
  ∧ (fst (LD.OnFailure this Fixture.Transient 4900000000) = true
     ↔ 4900000000 < 0 + 5000 * 1000000).
Proof.
  intros this.
  assert (Hs : IsPermanentFailure Fixture.Transient = false) by reflexivity.
  assert (H1 : Int64.in_range (5000 * 1000000)) by in_int64.
  assert (H2 : Int64.in_range (0 + 5000 * 1000000)) by in_int64.
  destruct (duration_OnFailure_transient Fixture.ns_per_ms this Fixture.Transient
              4900000000 (Chrono.of_seconds 5) (Chrono.of_seconds 1)
              mkDefaultClock 0 [] Hs) as (_ & _ & Hbuilt).
  split; [exact Hs|split; [exact H1|split; [exact H2|]]].
  exact (proj1 (Hbuilt H1 H2)).
Defined.

(** ** C7 *)

(** C7 fails on two counts.  The duration added is the configured one cast
    to whole milliseconds: with 1500 microseconds the deadline is the
    reading plus 1ms.  And the sum is a 64-bit sum: with the largest
    [std::chrono::milliseconds] and a reading of 0 it is 1ms before the
    epoch. *)
Lemma deadline_is_not_now_plus_configured :
  (let this := LEC.ctor 3 (Chrono.of_microseconds 1500) mkDefaultClock in
   LEC.OperationDeadline Fixture.ns_per_ms this 0 = 1000000
   ∧ LEC.OperationDeadline Fixture.ns_per_ms this 0 ≠ 0 + 1500 * 1000)
  ∧ (let this := LEC.ctor 3 (Chrono.of_milliseconds Int64.INT64_MAX) mkDefaultClock in
     LEC.rpc_duration_ this = Int64.INT64_MAX
     ∧ LEC.OperationDeadline Fixture.ns_per_ms this 0 = -1000000
     ∧ LEC.OperationDeadline Fixture.ns_per_ms this 0
       ≠ 0 + LEC.rpc_duration_ this * 1000000).
Proof. repeat split; discriminate. Qed.

Lemma error_count_OperationDeadline_witness :
  let this :=
    snd (LEC.OnFailures (LEC.ctor 3 (Chrono.of_milliseconds 100) mkDefaultClock)
           [Fixture.Transient; Fixture.Permanent]) in
  Int64.in_range (100 * 1000000)
  ∧ Int64.in_range (7000000 + 100 * 1000000)
  ∧ LEC.OperationDeadline Fixture.ns_per_ms this 7000000 = 7000000 + 100 * 1000000.
Proof.
  intros this.
  assert (H1 : Int64.in_range (100 * 1000000)) by in_int64.
  assert (H2 : Int64.in_range (7000000 + 100 * 1000000)) by in_int64.
  destruct (error_count_OperationDeadline Fixture.ns_per_ms this 7000000
              3 (Chrono.of_milliseconds 100) mkDefaultClock
              [Fixture.Transient; Fixture.Permanent] 100) as (_ & _ & Hm).
  split; [exact H1|split; [exact H2|]].
  exact (Hm H1 H2).
Defined.

(** ** C8 *)

Lemma OperationDeadline_is_pure_witness :
  let p := LEC.ctor 3 (Chrono.of_milliseconds 100) mkDefaultClock in
  IsPermanentFailure Fixture.Transient = false
  ∧ snd (LEC.OnFailure p Fixture.Transient) ≠ p
  ∧ eval Fixture.ns_per_ms LEC.OperationDeadline_body p 7000000 = (107000000, p).
Proof.
  intros p.
  assert (Hs : IsPermanentFailure Fixture.Transient = false) by reflexivity.
  destruct (OperationDeadline_is_pure Fixture.ns_per_ms p
              (LD.ctor Fixture.ns_per_ms (Chrono.of_seconds 5) (Chrono.of_seconds 1)
                 mkDefaultClock 0)
              Fixture.Transient 7000000 7000000 2 [] ∅ ∅ 1%positive)
    as (_ & (Heval & _) & _ & (_ & _ & Hwrites & _) & _).
  split; [exact Hs|split; [exact (Hwrites Hs)|exact Heval]].
Defined.

(** ** C9 *)

(** C9 fails for the counting policy once the counter has gone round: with
    [max_failures = 3], after [INT_MAX] transient failures the policy is
    exhausted; the next one is refused and takes the counter to [INT_MIN],
    and the one after it is retried. *)
Lemma exhausted_count_policy_retries_again :
  let this := LEC.ctor 3 (Chrono.of_milliseconds 100) mkDefaultClock in
  let exhausted :=
    snd (LEC.OnFailures this (replicate (Z.to_nat Int.INT_MAX) Fixture.Transient)) in
  LEC.max_failures_ exhausted ≤ LEC.failure_count_ exhausted
  ∧ LEC.OnFailures exhausted [Fixture.Transient; Fixture.Transient]
    = ([false; true], LEC.with_count this (Int.INT_MIN + 1)).
Proof.
  intros this exhausted.
  assert (Hex : exhausted = LEC.with_count this Int.INT_MAX)
    by apply after_INT_MAX_failures.
  rewrite Hex. split; [discriminate|reflexivity].
Qed.

Lemma exhausted_is_sticky_witness :
  (let this :=
     snd (LEC.OnFailures (LEC.ctor 3 (Chrono.of_milliseconds 100) mkDefaultClock)
            (replicate 3 Fixture.Transient)) in
   fst (LEC.OnFailures this [Fixture.Transient; Fixture.Permanent; Fixture.Transient])
   = [false; false; false])
  ∧ (let this := LD.ctor Fixture.ns_per_ms (Chrono.of_seconds 5) (Chrono.of_seconds 1)
                   mkDefaultClock 0 in
     fst (LD.OnFailures this
            [(Fixture.Transient, 5100000000); (Fixture.Permanent, 5100000000);
             (Fixture.Transient, 6000000000)]) = [false; false; false])
  ∧ (let this := LD.ctor Fixture.ns_per_ms (Chrono.of_seconds 5) (Chrono.of_seconds 1)
                   mkDefaultClock 0 in
     fst (LD.OnFailures this
            [(Fixture.Transient, 4900000000); (Fixture.Transient, 5000000000);
             (Fixture.Transient, 6000000000)]) !! 2%nat = Some false).
Proof.
  destruct (@exhausted_is_sticky Fixture.status _ DefaultClock Chrono.time_point _)
    as (Hcount & Hafter & Hfrom).
  split_and!.
  - intros this.
    apply (Hcount this [Fixture.Transient; Fixture.Permanent; Fixture.Transient]).
    + vm_compute. discriminate.
    + vm_compute. discriminate.
    + vm_compute. discriminate.
  - intros this.
    apply (Hafter this 5000000000
             [(Fixture.Transient, 5100000000); (Fixture.Permanent, 5100000000);
              (Fixture.Transient, 6000000000)]).
    + repeat constructor; vm_compute; discriminate.
    + vm_compute. discriminate.
  - intros this.
    apply (Hfrom this _ 1%nat 2%nat
             (Fixture.Transient, 5000000000) (Fixture.Transient, 6000000000)).
    + repeat constructor; vm_compute; discriminate.
    + reflexivity.
    + vm_compute. discriminate.
    + repeat constructor.
    + reflexivity.
Defined.

(** ** C10 *)


(** * Further properties of the two policies *)

(** ** Runs of [LimitedErrorCountRetryPolicy::OnFailure] over any statuses *)
Section ErrorCountRuns.
Context {S : Type} `{Status S} {C : Type}.
Implicit Types (this : LEC.t C) (status : S) (statuses : list S).

Lemma transient_count_nonneg statuses : 0 ≤ LEC.transient_count statuses.
Proof. unfold LEC.transient_count. lia. Qed.

Lemma transient_count_cons status statuses :
  LEC.transient_count (status :: statuses)
  = (if IsPermanentFailure status then 0 else 1) + LEC.transient_count statuses.
Proof.
  unfold LEC.transient_count. cbn [List.filter].
  destruct (IsPermanentFailure status); cbn [negb length]; lia.
Qed.

(** One call, whatever the status, with the counter below [INT_MAX]. *)
Lemma OnFailure_any this status :
  Int.INT_MIN ≤ LEC.failure_count_ this →
  LEC.failure_count_ this + LEC.transient_count [status] ≤ Int.INT_MAX →
  LEC.OnFailure this status
  = (negb (IsPermanentFailure status)
       && (LEC.failure_count_ this <? LEC.max_failures_ this),
     LEC.with_count this
       (LEC.failure_count_ this + LEC.transient_count [status])).
Proof.
  intros Hlo Hhi. rewrite transient_count_cons in *.
  change (LEC.transient_count []) with 0 in *.
  destruct (IsPermanentFailure status) eqn:Hs.
  - rewrite (OnFailure_permanent _ _ Hs). cbn [negb andb]. f_equal.
    rewrite Z.add_0_r. symmetry. apply with_count_same.
  - rewrite (OnFailure_transient _ _ Hs). cbn [negb andb]. f_equal. f_equal.
    rewrite succ_below_INT_MAX by lia. lia.
Qed.

Lemma mixed_run_state this statuses :
  Int.INT_MIN ≤ LEC.failure_count_ this →
  LEC.failure_count_ this + LEC.transient_count statuses ≤ Int.INT_MAX →
  snd (LEC.OnFailures this statuses)
  = LEC.with_count this (LEC.failure_count_ this + LEC.transient_count statuses).
Proof.
  revert this. induction statuses as [|s l IH]; intros this Hlo Hhi.
  - change (LEC.transient_count []) with 0. rewrite Z.add_0_r.
    symmetry. apply with_count_same.
  - rewrite OnFailures_cons. cbn [snd].
    rewrite transient_count_cons in *.
    pose proof (transient_count_nonneg l).
    rewrite OnFailure_any
      by (rewrite ?transient_count_cons; change (LEC.transient_count []) with 0;
          destruct (IsPermanentFailure s); lia).
    cbn [snd]. rewrite transient_count_cons. change (LEC.transient_count []) with 0.
    rewrite IH; cbn [LEC.with_count LEC.failure_count_];
      [|destruct (IsPermanentFailure s); lia..].
    unfold LEC.with_count; cbn. f_equal. lia.
Qed.

Lemma mixed_run_answer this statuses (i : nat) status :
  Int.INT_MIN ≤ LEC.failure_count_ this →
  LEC.failure_count_ this + LEC.transient_count statuses ≤ Int.INT_MAX →
  statuses !! i = Some status →
  fst (LEC.OnFailures this statuses) !! i
  = Some (negb (IsPermanentFailure status)
          && (LEC.failure_count_ this + LEC.transient_count (take i statuses)
              <? LEC.max_failures_ this)).
Proof.
  revert this i. induction statuses as [|s l IH]; intros this i Hlo Hhi Hi.
  - discriminate.
  - rewrite OnFailures_cons. cbn [fst].
    rewrite transient_count_cons in Hhi.
    pose proof (transient_count_nonneg l).
    assert (Hone : LEC.failure_count_ this + LEC.transient_count [s] ≤ Int.INT_MAX).
    { rewrite transient_count_cons. change (LEC.transient_count []) with 0.
      destruct (IsPermanentFailure s); lia. }
    rewrite (OnFailure_any this s Hlo Hone). cbn [fst snd].
    destruct i as [|i]; cbn in Hi.
    + simplify_eq. cbn [take]. change (LEC.transient_count []) with 0.
      rewrite Z.add_0_r. reflexivity.
    + cbn [lookup list_lookup]. cbn [take].
      rewrite (IH _ i); cbn [LEC.with_count LEC.failure_count_ LEC.max_failures_];
        [| rewrite transient_count_cons; change (LEC.transient_count []) with 0;
           destruct (IsPermanentFailure s); lia..| exact Hi].
      rewrite (transient_count_cons s (take i l)).
      rewrite (transient_count_cons s []). change (LEC.transient_count []) with 0.
      do 3 f_equal. lia.
Qed.

Lemma mixed_run_granted this statuses :
  Int.INT_MIN ≤ LEC.failure_count_ this →
  LEC.failure_count_ this + LEC.transient_count statuses ≤ Int.INT_MAX →
  granted (fst (LEC.OnFailures this statuses))
  = Z.max 0 (Z.min (LEC.max_failures_ this - LEC.failure_count_ this)
                   (LEC.transient_count statuses)).
Proof.
  revert this. induction statuses as [|s l IH]; intros this Hlo Hhi.
  - change (LEC.transient_count []) with 0.
    change (granted (fst (LEC.OnFailures this []))) with 0. lia.
  - rewrite OnFailures_cons. cbn [fst].
    rewrite transient_count_cons in *.
    pose proof (transient_count_nonneg l).
    assert (Hone : LEC.failure_count_ this + LEC.transient_count [s] ≤ Int.INT_MAX).
    { rewrite transient_count_cons. change (LEC.transient_count []) with 0.
      destruct (IsPermanentFailure s); lia. }
    rewrite (OnFailure_any this s Hlo Hone). cbn [fst snd].
    rewrite transient_count_cons. change (LEC.transient_count []) with 0.
    unfold granted in *. cbn [List.filter].
    specialize (IH (LEC.with_count this
      (LEC.failure_count_ this + ((if IsPermanentFailure s then 0 else 1) + 0)))).
    cbn [LEC.with_count LEC.failure_count_ LEC.max_failures_] in IH.
    destruct (IsPermanentFailure s); cbn [negb andb].
    + rewrite IH by lia. lia.
    + destruct (Z.ltb_spec (LEC.failure_count_ this) (LEC.max_failures_ this));
        cbn [length]; rewrite ?Nat2Z.inj_succ, IH by lia; lia.
Qed.

End ErrorCountRuns.

Section DurationInterface.
Context {S : Type} `{Status S} {C W : Type} `{Clock C W}.
Variable ticks_per_ms : positive.

Lemma LD_do_calls (q : LD.t C) (cs : list (call S * W)) :
  do_calls (policy := LimitedDuration_RetryPolicy ticks_per_ms) q cs
  = ((λ cw, fst (do_call (policy := LimitedDuration_RetryPolicy ticks_per_ms)
                   q (fst cw) (snd cw))) <$> cs,
     q).
Proof.
  induction cs as [|[c w] cs IH]; [reflexivity|].
  rewrite do_calls_cons.
  assert (Hq : snd (do_call (policy := LimitedDuration_RetryPolicy ticks_per_ms) q c w)
               = q) by (destruct c; reflexivity).
  rewrite Hq, IH. reflexivity.
Qed.

End DurationInterface.

(** The terms of a ratio whose denominator divides its numerator. *)
Lemma reduce_divisible (n d : positive) :
  (Z.pos d | Z.pos n) →
  Z.pos (Chrono.num (Chrono.reduce n d)) = Z.pos n / Z.pos d
  ∧ Chrono.den (Chrono.reduce n d) = 1%positive.
Proof.
  intros Hdiv. unfold Chrono.reduce; cbn [Chrono.num Chrono.den].
  assert (Hg : Z.gcd (Z.pos n) (Z.pos d) = Z.pos d).
  { rewrite Z.gcd_comm. apply Z.divide_gcd_iff; [lia|exact Hdiv]. }
  rewrite Hg. destruct Hdiv as [k Hk].
  assert (0 < k) by nia.
  rewrite Hk, Z.div_mul, Z.div_same by lia.
  split; [apply Z2Pos.id; lia|reflexivity].
Qed.

Section Extras.
Context {S : Type} `{Status S} {C W : Type} `{Clock C W}.
Variable ticks_per_ms : positive.

Local Abbreviation cast := Chrono.duration_cast_milliseconds.
Local Abbreviation tpm := (Z.pos ticks_per_ms).

(** X1.  The move constructors restart the policy like the copy
    constructors do: an object moved from a policy that has handled any
    failures is the object the constructor makes from the original
    arguments at the time of the move, with no failure counted and, in the
    duration policy, a deadline computed anew. *)
Theorem moved_policy_starts_over
    (max_failures : Z) (max_duration rpc_duration : Chrono.duration) (c : C)
    (statuses : list S) (calls : list (S * W)) (w0 w : W) :
  LEC.move_ctor
    (snd (LEC.OnFailures (LEC.ctor max_failures rpc_duration c) statuses))
  = LEC.ctor max_failures rpc_duration c
  ∧ LEC.failure_count_
      (LEC.move_ctor
         (snd (LEC.OnFailures (LEC.ctor max_failures rpc_duration c) statuses)))
    = 0
  ∧ LD.move_ctor ticks_per_ms
      (snd (LD.OnFailures (LD.ctor ticks_per_ms max_duration rpc_duration c w0) calls)) w
    = LD.ctor ticks_per_ms max_duration rpc_duration c w.
Proof.
  assert (Hlec : LEC.move_ctor
      (snd (LEC.OnFailures (LEC.ctor max_failures rpc_duration c) statuses))
    = LEC.ctor max_failures rpc_duration c).
  { rewrite OnFailures_with_count. reflexivity. }
  rewrite Hlec. split_and!; try reflexivity.
  rewrite LD_OnFailures_state. reflexivity.
Qed.

(** X2.  Permanent failures cost nothing.  In a run of calls on a new
    [LimitedErrorCountRetryPolicy], over statuses of any kind, a call is
    answered [true] exactly when its status is not a permanent failure and
    fewer than [max_failures] of the statuses before it were not permanent;
    the counter ends at the number of statuses that were not permanent. *)
Theorem permanent_failures_cost_nothing
    (max_failures : Z) (rpc_duration : Chrono.duration) (c : C)
    (statuses : list S) (i : nat) (status : S) :
  LEC.transient_count statuses ≤ Int.INT_MAX →
  statuses !! i = Some status →
  fst (LEC.OnFailures (LEC.ctor max_failures rpc_duration c) statuses) !! i
  = Some (negb (IsPermanentFailure status)
          && (LEC.transient_count (take i statuses) <? max_failures))
  ∧ LEC.failure_count_
      (snd (LEC.OnFailures (LEC.ctor max_failures rpc_duration c) statuses))
    = LEC.transient_count statuses.
Proof.
  intros Hhi Hi. split.
  - rewrite (mixed_run_answer _ statuses i status); cbn [LEC.ctor LEC.failure_count_];
      [reflexivity|discriminate|lia|exact Hi].
  - rewrite mixed_run_state; cbn [LEC.ctor LEC.failure_count_];
      [reflexivity|discriminate|lia].
Qed.

(** X3.  The retries granted by a new [LimitedErrorCountRetryPolicy] over
    a run of statuses of any kind number the smaller of [max_failures] and
    the count of statuses that are not permanent failures, and none when
    [max_failures] is zero or negative: never more than [max_failures]. *)
Theorem retries_granted_count
    (max_failures : Z) (rpc_duration : Chrono.duration) (c : C)
    (statuses : list S) :
  LEC.transient_count statuses ≤ Int.INT_MAX →
  granted (fst (LEC.OnFailures (LEC.ctor max_failures rpc_duration c) statuses))
  = Z.max 0 (Z.min max_failures (LEC.transient_count statuses))
  ∧ granted (fst (LEC.OnFailures (LEC.ctor max_failures rpc_duration c) statuses))
    ≤ Z.max 0 max_failures.
Proof.
  intros Hhi.
  rewrite mixed_run_granted; cbn [LEC.ctor LEC.failure_count_ LEC.max_failures_];
    [|discriminate|lia].
  rewrite Z.sub_0_r. split; lia.
Qed.

(** X4.  A [LimitedDurationRetryPolicy] constructed with a maximum
    duration that is not negative and below one millisecond never retries:
    the cast leaves no whole millisecond, the deadline is the time of the
    construction, and [OnFailure] returns [false] for every status at every
    reading not before that time. *)
Theorem short_max_duration_never_retries
    (max_duration rpc_duration : Chrono.duration) (c : C) (w0 : W)
    (calls : list (S * W)) (status : S) (w : W) :
  0 ≤ Chrono.count max_duration →
  Chrono.count max_duration * (Z.pos (Chrono.num (Chrono.period max_duration)) * 1000)
    < Z.pos (Chrono.den (Chrono.period max_duration)) →
  Z.pos (Chrono.den (Chrono.period max_duration)) ≤ Int64.INT64_MAX →
  Int64.in_range (now c w0) →
  now c w0 ≤ now c w →
  fst (LD.OnFailure
         (snd (LD.OnFailures (LD.ctor ticks_per_ms max_duration rpc_duration c w0) calls))
         status w) = false.
Proof.
  intros Hpos Hshort Hden Hnow Hclock. rewrite LD_OnFailures_state.
  assert (Hcast : cast max_duration = 0).
  { rewrite duration_cast_milliseconds_quot.
    - apply Z.quot_small. lia.
    - unfold Int64.in_range, Int64.INT64_MIN, Int64.INT64_MAX in *. lia. }
  unfold LD.OnFailure. cbn [fst LD.ctor LD.c_ LD.deadline_]. rewrite Hcast.
  rewrite duration_plus_time_point_exact;
    [|rewrite Z.mul_0_l; vm_compute; split; discriminate
     |rewrite Z.mul_0_l, Z.add_0_r; exact Hnow].
  apply andb_false_intro2, Z.ltb_ge. lia.
Qed.

(** X5.  When [LimitedDurationRetryPolicy::OnFailure] grants a retry, the
    stored [rpc_duration_] is positive, and [rpc_duration_] in ticks and its
    sum with the reading fit in 64 bits, [OperationDeadline] read at the
    same moment is strictly after that moment and not after [deadline_]:
    the attempt gets the smaller of the time left and [rpc_duration_]. *)
Theorem approved_retry_has_time (this : LD.t C) (status : S) (w : W) :
  fst (LD.OnFailure this status w) = true →
  0 < LD.rpc_duration_ this →
  Int64.in_range (LD.rpc_duration_ this * tpm) →
  Int64.in_range (now (LD.c_ this) w + LD.rpc_duration_ this * tpm) →
  now (LD.c_ this) w < LD.OperationDeadline ticks_per_ms this w ≤ LD.deadline_ this
  ∧ LD.OperationDeadline ticks_per_ms this w - now (LD.c_ this) w
    = Z.min (LD.deadline_ this - now (LD.c_ this) w) (LD.rpc_duration_ this * tpm).
Proof.
  unfold LD.OnFailure. cbn [fst]. intros [_ Hlt%Z.ltb_lt]%andb_prop Hrpc Hr Hsum.
  unfold LD.OperationDeadline.
  rewrite std_min_min, time_point_plus_exact by assumption. nia.
Qed.

(** X6.  Once the reading has reached [deadline_],
    [LimitedDurationRetryPolicy::OperationDeadline] returns [deadline_]
    itself, a time that is not in the future, whenever [rpc_duration_] is
    not negative and, in ticks, fits in 64 bits together with its sum with
    the reading. *)
Theorem expired_policy_deadline_is_past (this : LD.t C) (w : W) :
  LD.deadline_ this ≤ now (LD.c_ this) w →
  0 ≤ LD.rpc_duration_ this →
  Int64.in_range (LD.rpc_duration_ this * tpm) →
  Int64.in_range (now (LD.c_ this) w + LD.rpc_duration_ this * tpm) →
  LD.OperationDeadline ticks_per_ms this w = LD.deadline_ this
  ∧ LD.OperationDeadline ticks_per_ms this w ≤ now (LD.c_ this) w.
Proof.
  intros Hpast Hrpc Hr Hsum. unfold LD.OperationDeadline.
  rewrite std_min_min, time_point_plus_exact by assumption. nia.
Qed.

(** X7.  The deadlines follow the clock: in both classes, when
    [rpc_duration_] in ticks and its sums with two readings fit in 64 bits,
    the later reading gives a deadline that is not earlier, whatever
    failures were handled between the two calls of [OperationDeadline]. *)
Theorem OperationDeadline_monotone :
  (∀ (p : LEC.t C) (statuses : list S) (w1 w2 : W),
      Int64.in_range (LEC.rpc_duration_ p * tpm) →
      Int64.in_range (now (LEC.c_ p) w1 + LEC.rpc_duration_ p * tpm) →
      Int64.in_range (now (LEC.c_ p) w2 + LEC.rpc_duration_ p * tpm) →
      now (LEC.c_ p) w1 ≤ now (LEC.c_ p) w2 →
      LEC.OperationDeadline ticks_per_ms p w1
      ≤ LEC.OperationDeadline ticks_per_ms (snd (LEC.OnFailures p statuses)) w2)
  ∧ (∀ (q : LD.t C) (calls : list (S * W)) (w1 w2 : W),
      Int64.in_range (LD.rpc_duration_ q * tpm) →
      Int64.in_range (now (LD.c_ q) w1 + LD.rpc_duration_ q * tpm) →
      Int64.in_range (now (LD.c_ q) w2 + LD.rpc_duration_ q * tpm) →
      now (LD.c_ q) w1 ≤ now (LD.c_ q) w2 →
      LD.OperationDeadline ticks_per_ms q w1
      ≤ LD.OperationDeadline ticks_per_ms (snd (LD.OnFailures q calls)) w2).
Proof.
  split.
  - intros p statuses w1 w2 Hr H1 H2 Hle. rewrite OnFailures_with_count.
    unfold LEC.OperationDeadline.
    cbn [LEC.with_count LEC.c_ LEC.rpc_duration_].
    rewrite !time_point_plus_exact by assumption. lia.
  - intros q calls w1 w2 Hr H1 H2 Hle. rewrite LD_OnFailures_state.
    unfold LD.OperationDeadline.
    rewrite !std_min_min, !time_point_plus_exact by assumption. lia.
Qed.

(** X8.  A clone of a policy that has run out can retry again: the clone
    of a [LimitedErrorCountRetryPolicy] with a positive maximum answers
    [true] to a transient failure whatever the source has counted, and the
    clone of a [LimitedDurationRetryPolicy] with a positive maximum
    duration answers [true] at the moment it is made, whatever the
    deadline of the source, when the maximum duration in ticks and its sum
    with the reading fit in 64 bits. *)
Theorem clone_of_exhausted_retries :
  (∀ (this : LEC.t C) (status : S),
      0 < LEC.max_failures_ this →
      IsPermanentFailure status = false →
      fst (LEC.OnFailure (LEC.clone this) status) = true)
  ∧ (∀ (this : LD.t C) (status : S) (w : W),
      0 < LD.max_duration_ this →
      IsPermanentFailure status = false →
      Int64.in_range (LD.max_duration_ this * tpm) →
      Int64.in_range (now (LD.c_ this) w + LD.max_duration_ this * tpm) →
      fst (LD.OnFailure (LD.clone ticks_per_ms this w) status w) = true).
Proof.
  split.
  - intros this status Hmax Hs. rewrite (OnFailure_transient _ _ Hs). cbn [fst].
    apply Z.ltb_lt. exact Hmax.
  - intros this status w Hmax Hs Hr Hsum.
    unfold LD.OnFailure, LD.clone, LD.copy_ctor, LD.ctor. cbv zeta.
    cbn [fst LD.c_ LD.deadline_]. rewrite Hs, duration_cast_of_milliseconds.
    rewrite duration_plus_time_point_exact by assumption.
    cbn [negb andb]. apply Z.ltb_lt. nia.
Qed.

(** X9.  A duration whose period is a whole number of milliseconds
    (seconds, minutes, milliseconds themselves) is kept exactly by the
    constructors when its count in milliseconds fits in 64 bits: the stored
    count is the given count times the milliseconds in a period, and the
    deadline of [LimitedErrorCountRetryPolicy] is the reading plus exactly
    that, when that in ticks and the sum fit as well. *)
Theorem whole_milliseconds_kept_exactly
    (d : Chrono.duration) (max_failures : Z) (c : C) (w : W) :
  let ms_per_tick :=
    Z.pos (Chrono.num (Chrono.period d)) * 1000 / Z.pos (Chrono.den (Chrono.period d)) in
  (Z.pos (Chrono.den (Chrono.period d))
   | Z.pos (Chrono.num (Chrono.period d)) * 1000) →
  Int64.in_range (Chrono.count d * ms_per_tick) →
  Int64.in_range (Chrono.count d * ms_per_tick * tpm) →
  Int64.in_range (now c w + Chrono.count d * ms_per_tick * tpm) →
  LEC.rpc_duration_ (LEC.ctor max_failures d c) = Chrono.count d * ms_per_tick
  ∧ LEC.OperationDeadline ticks_per_ms (LEC.ctor max_failures d c) w
    = now c w + Chrono.count d * ms_per_tick * tpm.
Proof.
  intros ms_per_tick Hdiv Hcount Hr Hsum.
  assert (Hcast : cast d = Chrono.count d * ms_per_tick).
  { unfold Chrono.duration_cast_milliseconds, Chrono.ratio_divide. cbv zeta.
    cbn [Chrono.num Chrono.den Chrono.milli]. rewrite Pos.mul_1_r.
    destruct (reduce_divisible (Chrono.num (Chrono.period d) * 1000)
                (Chrono.den (Chrono.period d))) as [Hn Hd].
    { rewrite Pos2Z.inj_mul. exact Hdiv. }
    rewrite Pos2Z.inj_mul in Hn. fold ms_per_tick in Hn.
    rewrite Hd, cast_count_quot by (rewrite Hn; exact Hcount).
    rewrite Hn. apply Z.quot_1_r. }
  split; [exact Hcast|].
  unfold LEC.OperationDeadline. cbn [LEC.ctor LEC.c_ LEC.rpc_duration_].
  rewrite Hcast. apply time_point_plus_exact; assumption.
Qed.

(** X10.  No call through the interface writes to a
    [LimitedDurationRetryPolicy]: after any run of calls of [OnFailure] and
    [OperationDeadline] the object is as it was, and each answer of
    [OnFailure] is decided by its status and its reading alone, not by the
    calls before it. *)
Theorem duration_policy_never_written
    (q : LD.t C) (cs : list (call S * W)) (i : nat) (status : S) (w : W) :
  cs !! i = Some (CallOnFailure status, w) →
  snd (do_calls (policy := LimitedDuration_RetryPolicy ticks_per_ms) q cs) = q
  ∧ fst (do_calls (policy := LimitedDuration_RetryPolicy ticks_per_ms) q cs) !! i
    = Some (Retry (negb (IsPermanentFailure status)
                   && (now (LD.c_ q) w <? LD.deadline_ q))).
Proof.
  intros Hi. rewrite LD_do_calls. cbn [fst snd]. split; [reflexivity|].
  rewrite list_lookup_fmap, Hi. reflexivity.
Qed.


End Extras.

(** ** The further properties on concrete inputs *)

Lemma permanent_failures_cost_nothing_witness :
  let statuses :=
    [Fixture.Transient; Fixture.Permanent; Fixture.Transient; Fixture.Transient] in
  let this := LEC.ctor 2 (Chrono.of_milliseconds 100) mkDefaultClock in
  LEC.transient_count statuses ≤ Int.INT_MAX
  ∧ fst (LEC.OnFailures this statuses) !! 2%nat = Some true
  ∧ LEC.failure_count_ (snd (LEC.OnFailures this statuses)) = 3.
Proof.
  intros statuses this.
  assert (Hhi : LEC.transient_count statuses ≤ Int.INT_MAX)
    by (vm_compute; discriminate).
  split; [exact Hhi|].
  exact (permanent_failures_cost_nothing 2 (Chrono.of_milliseconds 100) mkDefaultClock
           statuses 2 Fixture.Transient Hhi eq_refl).
Defined.

Lemma retries_granted_count_witness :
  let statuses :=
    [Fixture.Transient; Fixture.Permanent; Fixture.Transient; Fixture.Transient] in
  let this := LEC.ctor 2 (Chrono.of_milliseconds 100) mkDefaultClock in
  LEC.transient_count statuses ≤ Int.INT_MAX
  ∧ granted (fst (LEC.OnFailures this statuses)) = 2.
Proof.
  intros statuses this.
  assert (Hhi : LEC.transient_count statuses ≤ Int.INT_MAX)
    by (vm_compute; discriminate).
  split; [exact Hhi|].
  exact (proj1 (retries_granted_count 2 (Chrono.of_milliseconds 100) mkDefaultClock
                  statuses Hhi)).
Defined.

Lemma short_max_duration_never_retries_witness :
  let this := LD.ctor Fixture.ns_per_ms (Chrono.of_microseconds 999)
                (Chrono.of_seconds 1) mkDefaultClock 7000 in
  0 ≤ 999
  ∧ 999 * (1 * 1000) < 1000000
  ∧ 1000000 ≤ Int64.INT64_MAX
  ∧ Int64.in_range 7000
  ∧ fst (LD.OnFailure this Fixture.Transient 7000) = false.
Proof.
  intros this.
  assert (H1 : 0 ≤ 999) by discriminate.
  assert (H2 : 999 * (1 * 1000) < 1000000) by reflexivity.
  assert (H3 : 1000000 ≤ Int64.INT64_MAX) by discriminate.
  assert (H4 : Int64.in_range 7000) by in_int64.
  assert (H5 : 7000 ≤ 7000) by discriminate.
  split_and!; try assumption.
  exact (short_max_duration_never_retries Fixture.ns_per_ms
           (Chrono.of_microseconds 999) (Chrono.of_seconds 1) mkDefaultClock 7000
           [] Fixture.Transient 7000 H1 H2 H3 H4 H5).
Defined.

Lemma approved_retry_has_time_witness :
  let this := LD.ctor Fixture.ns_per_ms (Chrono.of_seconds 5) (Chrono.of_seconds 1)
                mkDefaultClock 0 in
  fst (LD.OnFailure this Fixture.Transient 4900000000) = true
  ∧ Int64.in_range (1000 * 1000000)
  ∧ Int64.in_range (4900000000 + 1000 * 1000000)
  ∧ 4900000000 < LD.OperationDeadline Fixture.ns_per_ms this 4900000000 ≤ 5000000000.
Proof.
  intros this.
  assert (Hretry : fst (LD.OnFailure this Fixture.Transient 4900000000) = true)
    by reflexivity.
  assert (H1 : Int64.in_range (1000 * 1000000)) by in_int64.
  assert (H2 : Int64.in_range (4900000000 + 1000 * 1000000)) by in_int64.
  split_and!; try assumption;
    apply (approved_retry_has_time Fixture.ns_per_ms this Fixture.Transient
             4900000000 Hretry eq_refl H1 H2).
Defined.

Lemma expired_policy_deadline_is_past_witness :
  let this := LD.ctor Fixture.ns_per_ms (Chrono.of_seconds 5) (Chrono.of_seconds 1)
                mkDefaultClock 0 in
  LD.deadline_ this ≤ 6000000000
  ∧ Int64.in_range (1000 * 1000000)
  ∧ Int64.in_range (6000000000 + 1000 * 1000000)
  ∧ LD.OperationDeadline Fixture.ns_per_ms this 6000000000 = 5000000000.
Proof.
  intros this.
  assert (Hpast : LD.deadline_ this ≤ now (LD.c_ this) 6000000000)
    by (vm_compute; discriminate).
  assert (Hrpc : 0 ≤ LD.rpc_duration_ this) by (vm_compute; discriminate).
  assert (H1 : Int64.in_range (1000 * 1000000)) by in_int64.
  assert (H2 : Int64.in_range (6000000000 + 1000 * 1000000)) by in_int64.
  split; [exact Hpast|split; [exact H1|split; [exact H2|]]].
  exact (proj1 (expired_policy_deadline_is_past Fixture.ns_per_ms this 6000000000
                  Hpast Hrpc H1 H2)).
Defined.

Lemma OperationDeadline_monotone_witness :
  (let p := LEC.ctor 3 (Chrono.of_milliseconds 100) mkDefaultClock in
   LEC.OperationDeadline Fixture.ns_per_ms p 1000
   ≤ LEC.OperationDeadline Fixture.ns_per_ms
       (snd (LEC.OnFailures p [Fixture.Transient; Fixture.Permanent])) 2000)
  ∧ (let q := LD.ctor Fixture.ns_per_ms (Chrono.of_seconds 5) (Chrono.of_seconds 1)
                mkDefaultClock 0 in
     LD.OperationDeadline Fixture.ns_per_ms q 1000
     ≤ LD.OperationDeadline Fixture.ns_per_ms
         (snd (LD.OnFailures q [(Fixture.Transient, 1500)])) 2000).
Proof.
  destruct (@OperationDeadline_monotone Fixture.status _ DefaultClock
              Chrono.time_point _ Fixture.ns_per_ms) as [Hcount Hduration].
  split.
  - intros p. apply (Hcount p [Fixture.Transient; Fixture.Permanent] 1000 2000);
      try in_int64. vm_compute. discriminate.
  - intros q. apply (Hduration q [(Fixture.Transient, 1500)] 1000 2000);
      try in_int64. vm_compute. discriminate.
Defined.

Lemma clone_of_exhausted_retries_witness :
  (let spent :=
     snd (LEC.OnFailures (LEC.ctor 3 (Chrono.of_milliseconds 100) mkDefaultClock)
            (replicate 4 Fixture.Transient)) in
   fst (LEC.OnFailure spent Fixture.Transient) = false
   ∧ fst (LEC.OnFailure (LEC.clone spent) Fixture.Transient) = true)
  ∧ (let late := LD.ctor Fixture.ns_per_ms (Chrono.of_seconds 5) (Chrono.of_seconds 1)
                   mkDefaultClock 0 in
     fst (LD.OnFailure late Fixture.Transient 9000000000) = false
     ∧ fst (LD.OnFailure (LD.clone Fixture.ns_per_ms late 9000000000)
              Fixture.Transient 9000000000) = true).
Proof.
  destruct (@clone_of_exhausted_retries Fixture.status _ DefaultClock
              Chrono.time_point _ Fixture.ns_per_ms) as [Hcount Hduration].
  split.
  - intros spent. split; [reflexivity|].
    apply (Hcount spent Fixture.Transient); reflexivity.
  - intros late. split; [reflexivity|].
    apply (Hduration late Fixture.Transient 9000000000);
      try reflexivity; in_int64.
Defined.

Lemma whole_milliseconds_kept_exactly_witness :
  (1 | 1 * 1000)
  ∧ Int64.in_range (5 * (1 * 1000 / 1))
  ∧ Int64.in_range (5 * (1 * 1000 / 1) * 1000000)
  ∧ Int64.in_range (42 + 5 * (1 * 1000 / 1) * 1000000)
  ∧ LEC.rpc_duration_ (LEC.ctor 3 (Chrono.of_seconds 5) mkDefaultClock) = 5 * 1000
  ∧ LEC.OperationDeadline Fixture.ns_per_ms
      (LEC.ctor 3 (Chrono.of_seconds 5) mkDefaultClock) 42
    = 42 + 5000 * 1000000.
Proof.
  assert (Hdiv : (1 | 1 * 1000)) by (exists 1000; reflexivity).
  assert (H1 : Int64.in_range (5 * (1 * 1000 / 1))) by in_int64.
  assert (H2 : Int64.in_range (5 * (1 * 1000 / 1) * 1000000)) by in_int64.
  assert (H3 : Int64.in_range (42 + 5 * (1 * 1000 / 1) * 1000000)) by in_int64.
  split; [exact Hdiv|split; [exact H1|split; [exact H2|split; [exact H3|]]]].
  exact (whole_milliseconds_kept_exactly Fixture.ns_per_ms
           (Chrono.of_seconds 5) 3 mkDefaultClock 42 Hdiv H1 H2 H3).
Defined.

Lemma duration_policy_never_written_witness :
  let q := LD.ctor Fixture.ns_per_ms (Chrono.of_seconds 5) (Chrono.of_seconds 1)
             mkDefaultClock 0 in
  let cs := [(CallOperationDeadline, 1000000000);
             (CallOnFailure Fixture.Transient, 2000000000)] in
  cs !! 1%nat = Some (CallOnFailure Fixture.Transient, 2000000000)
  ∧ snd (do_calls (policy := LimitedDuration_RetryPolicy Fixture.ns_per_ms) q cs) = q
  ∧ fst (do_calls (policy := LimitedDuration_RetryPolicy Fixture.ns_per_ms) q cs) !! 1%nat
    = Some (Retry true).
Proof.
  intros q cs.
  assert (Hi : cs !! 1%nat = Some (CallOnFailure Fixture.Transient, 2000000000))
    by reflexivity.
  split; [exact Hi|].
  exact (duration_policy_never_written Fixture.ns_per_ms q cs 1 Fixture.Transient
           2000000000 Hi).
Defined.
